(** * TrueSource: the product-provenance ledger of [backend/src/services/solana.js]

    A shallow embedding of [SolanaService]: the base58 signature encoder, the
    signature mint with its fallback path, the three mutations
    ([createProduct], [transferOwnership], [recordRepair]) and the three
    queries ([getProductHistory], [getRecentTransactions],
    [getAllTransactions]).

    JavaScript arrays are objects with identity: the per-product history
    arrays and [allTransactions] are mutated in place and handed out by
    reference.  The store therefore carries a heap of arrays, and the
    service's fields hold references into it.  Transaction records are never
    mutated after construction and are modelled as values.

    Every call runs to completion before the next one starts.  Logging is
    not modelled.  What a call learns from outside (the network's answers,
    the random bytes, the clock, the generated account) is an input, [Env]. *)

From Stdlib Require Import ZArith NArith Lia Ascii String Strings.Byte Sorting.Sorted.
From stdpp Require Import gmap strings list fin_maps sorting.

Local Open Scope string_scope.
Local Open Scope Z_scope.

(** ** Completions: how a JavaScript call ends *)

(** The value carried by a [throw]. *)
Inductive Thrown : Type :=
| Error (message : string)
| TypeError (message : string)
| SyntaxError (message : string).

(** A call returns, throws, or (for the fuelled loop) has not finished. *)
Inductive Completion (A : Type) : Type :=
| Return (a : A)
| Throw (e : Thrown)
| OutOfFuel.

Arguments Return {A} a.
Arguments Throw {A} e.
Arguments OutOfFuel {A}.

Definition cbind {A B} (m : Completion A) (k : A -> Completion B) : Completion B :=
  match m with
  | Return a => k a
  | Throw e => Throw e
  | OutOfFuel => OutOfFuel
  end.

(** [try { body } catch (error) { handler }]: a throw of the body is handled. *)
Definition try_catch {A} (body : Completion A) (handler : Thrown -> Completion A) : Completion A :=
  match body with
  | Throw e => handler e
  | other => other
  end.

(** ** Strings *)

Module Js.

(** [s.toLowerCase()] on ASCII text: the letters A-Z are folded, every
    other ASCII character is kept.  [String.prototype.toLowerCase] also folds
    letters outside ASCII; the model does not, so what is proved about case
    folding is stated for strings that satisfy [isAscii]. *)
Definition lower_ascii (c : ascii) : ascii :=
  let n := N_of_ascii c in
  if ((65 <=? n) && (n <=? 90))%N then ascii_of_N (n + 32) else c.

Fixpoint toLowerCase (s : string) : string :=
  match s with
  | EmptyString => EmptyString
  | String c s' => String (lower_ascii c) (toLowerCase s')
  end.

(** [s.includes(sub)]: [sub] occurs in [s] at some position. *)
Fixpoint includes (s sub : string) : bool :=
  if String.prefix sub s then true
  else match s with
       | EmptyString => false
       | String _ s' => includes s' sub
       end.

(** [s.slice(0, n)] for [n >= 0]. *)
Definition slice0 (n : nat) (s : string) : string := String.substring 0 n s.

(** Truthiness of a string: only the empty string is falsy. *)
Definition truthy_string (s : string) : bool :=
  match s with EmptyString => false | _ => true end.

(** Truthiness of an integral number: only zero is falsy. *)
Definition truthy_number (z : Z) : bool := negb (z =? 0).

(** [parseInt(z)] of an integral number: [parseInt] reads the decimal text
    of its argument, which for a safe integer (see [isSafeInteger]) is the
    numeral of the number itself.  A number of magnitude 1e21 or more prints
    with an exponent, of which [parseInt] reads the leading digit only; the
    model does not cover it, so what is proved about the time bounds is
    stated for bounds that satisfy [isSafeInteger]. *)
Definition parseInt (z : Z) : Z := z.

(** Every character of the string is an ASCII character. *)
Definition isAscii (s : string) : bool :=
  forallb (fun c => (N_of_ascii c <? 128)%N) (list_ascii_of_string s).

(** [Number.isSafeInteger(z)]: at most 2^53 - 1 in magnitude. *)
Definition isSafeInteger (z : Z) : bool := Z.abs z <=? 9007199254740991.

(** [arr.slice(start)] on the contents of an array. *)
Definition slice {A} (start : Z) (l : list A) : list A :=
  let len := Z.of_nat (length l) in
  let k := if start <? 0 then Z.max (len + start) 0 else Z.min start len in
  drop (Z.to_nat k) l.

End Js.

(** ** Base58 encoding of a byte buffer *)

Definition ALPHABET : string :=
  "123456789ABCDEFGHJKLMNPQRSTUVWXYZabcdefghijkmnopqrstuvwxyz".

Definition hexChars : string := "0123456789abcdef".

Definition hexChar (n : N) : ascii :=
  match String.get (N.to_nat n) hexChars with
  | Some c => c
  | None => "0"%char
  end.

(** [bytes.toString('hex')]: two lowercase hex digits per byte. *)
Fixpoint toHex (bytes : list byte) : string :=
  match bytes with
  | [] => EmptyString
  | b :: rest =>
      let n := Byte.to_N b in
      String (hexChar (n / 16)) (String (hexChar (n mod 16)) (toHex rest))
  end.

Definition hexValue (c : ascii) : option N :=
  let n := N_of_ascii c in
  if ((48 <=? n) && (n <=? 57))%N then Some (n - 48)%N
  else if ((97 <=? n) && (n <=? 102))%N then Some (n - 87)%N
  else if ((65 <=? n) && (n <=? 70))%N then Some (n - 55)%N
  else None.

Fixpoint parseHexDigits (digits : string) (acc : N) : option N :=
  match digits with
  | EmptyString => Some acc
  | String c rest =>
      match hexValue c with
      | Some d => parseHexDigits rest (16 * acc + d)%N
      | None => None
      end
  end.

(** [BigInt('0x' + digits)]: a hex literal needs at least one digit. *)
Definition BigInt_hex (digits : string) : Completion N :=
  match digits with
  | EmptyString => Throw (SyntaxError "Cannot convert 0x to a BigInt")
  | _ =>
      match parseHexDigits digits 0%N with
      | Some n => Return n
      | None => Throw (SyntaxError ("Cannot convert 0x" +:+ digits +:+ " to a BigInt"))
      end
  end.

(** [ALPHABET[i] + encoded]; an index out of range reads [undefined]. *)
Definition prependAlphabet (i : N) (encoded : string) : string :=
  match String.get (N.to_nat i) ALPHABET with
  | Some c => String c encoded
  | None => "undefined" +:+ encoded
  end.

(** The [while (num > 0)] loop, one iteration per unit of fuel. *)
Fixpoint encodeLoop (fuel : nat) (num : N) (encoded : string) : Completion string :=
  if (0 <? num)%N then
    match fuel with
    | O => OutOfFuel
    | S fuel' =>
        let remainder := (num mod 58)%N in
        let num' := (num / 58)%N in
        encodeLoop fuel' num' (prependAlphabet remainder encoded)
    end
  else Return encoded.

(** The [for] loop that adds one ['1'] per leading zero byte. *)
Fixpoint leadingOnes (bytes : list byte) (encoded : string) : string :=
  match bytes with
  | x00 :: rest => leadingOnes rest (String "1" encoded)
  | _ => encoded
  end.

(** The loop is given one unit of fuel per bit of [num]; [encodeLoop_spec]
    shows that this is enough for it to finish. *)
Definition encodeBase58 (bytes : list byte) : Completion string :=
  cbind (BigInt_hex (toHex bytes)) (fun num =>
  cbind (encodeLoop (N.to_nat (N.size num)) num EmptyString) (fun encoded =>
  Return (leadingOnes bytes encoded))).

(** ** The outside world seen by one call *)

(** The outcome of an awaited promise.  Awaited promises are taken to
    settle: they are fulfilled with a value or rejected with a reason. *)
Inductive Settled (A : Type) : Type :=
| Fulfilled (a : A)
| Rejected (reason : Thrown).

Arguments Fulfilled {A} a.
Arguments Rejected {A} reason.

(** [await p] *)
Definition await {A} (p : Settled A) : Completion A :=
  match p with
  | Fulfilled a => Return a
  | Rejected reason => Throw reason
  end.

(** What the network, the random source, the clock and the key generator
    answer during one call of the service. *)
Record Env : Type := {
  getLatestBlockhash : Settled string;
  sendRawTransaction : Settled string;
  randomBytes : nat -> list byte;
  randomBytes_length : forall n, length (randomBytes n) = n;
  now : Z;
  generatedAccount : string
}.

(** The body of the [try]: fetch a blockhash, sign, submit. *)
Definition anchorWrite (env : Env) : Completion string :=
  cbind (await (getLatestBlockhash env)) (fun blockhash =>
  cbind (await (sendRawTransaction env)) (fun signature =>
  Return signature)).

Definition generateTransactionSignature (env : Env) (description : string) : Completion string :=
  try_catch
    (anchorWrite env)
    (fun error =>
     let randomBytes := randomBytes env 64 in
     cbind (encodeBase58 randomBytes) (fun base58Signature =>
     Return base58Signature)).

(** ** Transaction records *)

Inductive Kind : Type := Manufacture | Transfer | Repair.

Record Event : Type := {
  type : Kind;
  timestamp : Z;
  owner : string;
  previousOwner : option string;
  metadata : option string;
  productId : string;
  signature : string
}.

#[global] Instance Kind_eq_dec : EqDecision Kind.
Proof. solve_decision. Defined.

#[global] Instance Event_eq_dec : EqDecision Event.
Proof. solve_decision. Defined.

(** The object returned by a mutation: [{ signature }] or
    [{ signature, account }]. *)
Module Receipt.
Record t : Type := { signature : string; account : option string }.
End Receipt.

(** ** The store: a heap of arrays and the service's two fields *)

Record Store : Type := {
  arrays : list (list Event);
  productHistory : gmap string nat;
  allTransactions : nat
}.

(** The state left by the constructor. *)
Definition initialStore : Store :=
  {| arrays := [[]]; productHistory := ∅; allTransactions := 0%nat |}.

Definition M (A : Type) : Type := Store -> Completion A * Store.

Definition ret {A} (a : A) : M A := fun s => (Return a, s).

Definition bind {A B} (m : M A) (k : A -> M B) : M B :=
  fun s =>
    match m s with
    | (Return a, s') => k a s'
    | (Throw e, s') => (Throw e, s')
    | (OutOfFuel, s') => (OutOfFuel, s')
    end.

Definition throw {A} (e : Thrown) : M A := fun s => (Throw e, s).

Definition lift {A} (c : Completion A) : M A := fun s => (c, s).

Notation "x <- m ;; k" := (bind m (fun x => k))
  (at level 100, m at next level, right associativity).

(** [this.productHistory.has(k)] and [.get(k)] in one read. *)
Definition mapGet (k : string) : M (option nat) :=
  fun s => (Return (productHistory s !! k), s).

(** [this.productHistory.set(k, a)]. *)
Definition mapSet (k : string) (a : nat) : M unit :=
  fun s => (Return tt,
            {| arrays := arrays s;
               productHistory := <[k := a]> (productHistory s);
               allTransactions := allTransactions s |}).

Definition thisAllTransactions : M nat :=
  fun s => (Return (allTransactions s), s).

(** A new array object with the given contents. *)
Definition newArray (l : list Event) : M nat :=
  fun s => (Return (length (arrays s)),
            {| arrays := arrays s ++ [l];
               productHistory := productHistory s;
               allTransactions := allTransactions s |}).

(** The contents of an array object.  A reference that names no array reads
    as empty; the service never holds one (see [wellFormed]). *)
Definition readArray (a : nat) : M (list Event) :=
  fun s => (Return (default [] (arrays s !! a)), s).

(** Replace the contents of an array object in place. *)
Definition writeArray (a : nat) (l : list Event) : M unit :=
  fun s => (Return tt,
            {| arrays := <[a := l]> (arrays s);
               productHistory := productHistory s;
               allTransactions := allTransactions s |}).

(** [a.push(e)]. *)
Definition push (a : nat) (e : Event) : M unit :=
  l <- readArray a ;; writeArray a (l ++ [e]).

(** [[...a]] and [a.slice(start)]: a new array. *)
Definition spread (a : nat) : M nat :=
  l <- readArray a ;; newArray l.

Definition sliceArray (a : nat) (start : Z) : M nat :=
  l <- readArray a ;; newArray (Js.slice start l).

(** [a.filter(p)]: a new array. *)
Definition filterArray (a : nat) (p : Event -> bool) : M nat :=
  l <- readArray a ;; newArray (List.filter p l).

(** [a.reverse()]: in place, returns the same array. *)
Definition reverseArray (a : nat) : M nat :=
  l <- readArray a ;; _ <- writeArray a (rev l) ;; ret a.

(** [Array.prototype.sort] is stable; for a consistent comparator its
    outcome is the stable ordering, computed here by insertion. *)
Fixpoint insertBy (cmp : Event -> Event -> Z) (x : Event) (l : list Event) : list Event :=
  match l with
  | [] => [x]
  | y :: l' => if 0 <? cmp x y then y :: insertBy cmp x l' else x :: y :: l'
  end.

Fixpoint sortBy (cmp : Event -> Event -> Z) (l : list Event) : list Event :=
  match l with
  | [] => []
  | x :: l' => insertBy cmp x (sortBy cmp l')
  end.

(** [a.sort(cmp)]: in place. *)
Definition sortArray (a : nat) (cmp : Event -> Event -> Z) : M unit :=
  l <- readArray a ;; writeArray a (sortBy cmp l).

(** ** The service *)

(** The message of the ownership check's [Error]. *)
Definition ownershipFailed (actual supplied : string) : string :=
  "Ownership verification failed. Current owner is " +:+ actual +:+ ", not " +:+ supplied.

(** [metadata || ''] *)
Definition orEmpty (metadata : option string) : string :=
  match metadata with
  | Some m => if Js.truthy_string m then m else EmptyString
  | None => EmptyString
  end.

Definition createProduct (productId : string) (metadata : option string)
    (manufacturerPublicKey : string) (env : Env) : M Receipt.t :=
  existing <- mapGet productId ;;
  match existing with
  | Some _ => throw (Error "Product ID already exists")
  | None =>
      signature <- lift (generateTransactionSignature env
                           ("Create product: " +:+ productId)) ;;
      let transaction :=
        {| type := Manufacture;
           timestamp := now env;
           owner := manufacturerPublicKey;
           previousOwner := None;
           metadata := Some (orEmpty metadata);
           productId := productId;
           signature := signature |} in
      history <- newArray [transaction] ;;
      _ <- mapSet productId history ;;
      all <- thisAllTransactions ;;
      _ <- push all transaction ;;
      ret {| Receipt.signature := signature;
             Receipt.account := Some (generatedAccount env) |}
  end.

Definition transferOwnership (productId currentOwner nextOwner : string)
    (env : Env) : M Receipt.t :=
  existing <- mapGet productId ;;
  match existing with
  | None => throw (Error "Product ID does not exist")
  | Some history =>
      records <- readArray history ;;
      match last records with
      | None => throw (TypeError "Cannot read properties of undefined (reading 'owner')")
      | Some latestRecord =>
          if decide (latestRecord.(owner) <> currentOwner) then
            throw (Error (ownershipFailed latestRecord.(owner) currentOwner))
          else
            signature <- lift (generateTransactionSignature env
                                 ("Transfer product: " +:+ productId +:+ " from "
                                  +:+ Js.slice0 8 currentOwner +:+ " to "
                                  +:+ Js.slice0 8 nextOwner)) ;;
            let transaction :=
              {| type := Transfer;
                 timestamp := now env;
                 owner := nextOwner;
                 previousOwner := Some currentOwner;
                 metadata := None;
                 productId := productId;
                 signature := signature |} in
            _ <- push history transaction ;;
            _ <- mapSet productId history ;;
            all <- thisAllTransactions ;;
            _ <- push all transaction ;;
            ret {| Receipt.signature := signature; Receipt.account := None |}
      end
  end.

Definition recordRepair (productId repairOwner : string) (repairMetadata : option string)
    (env : Env) : M Receipt.t :=
  existing <- mapGet productId ;;
  match existing with
  | None => throw (Error "Product ID does not exist")
  | Some history =>
      records <- readArray history ;;
      match last records with
      | None => throw (TypeError "Cannot read properties of undefined (reading 'owner')")
      | Some latestRecord =>
          if decide (latestRecord.(owner) <> repairOwner) then
            throw (Error (ownershipFailed latestRecord.(owner) repairOwner))
          else
            signature <- lift (generateTransactionSignature env
                                 ("Record repair: " +:+ productId)) ;;
            let transaction :=
              {| type := Repair;
                 timestamp := now env;
                 owner := repairOwner;
                 previousOwner := None;
                 metadata := repairMetadata;
                 productId := productId;
                 signature := signature |} in
            _ <- push history transaction ;;
            _ <- mapSet productId history ;;
            all <- thisAllTransactions ;;
            _ <- push all transaction ;;
            ret {| Receipt.signature := signature; Receipt.account := None |}
      end
  end.

(** Returns the history array itself, not a copy. *)
Definition getProductHistory (productId : string) : M nat :=
  existing <- mapGet productId ;;
  match existing with
  | None => throw (Error "Product ID does not exist")
  | Some history => ret history
  end.

(** [limit = 10] when the argument is [undefined]. *)
Definition getRecentTransactions (limit : option Z) : M nat :=
  let limit := default 10 limit in
  all <- thisAllTransactions ;;
  recent <- sliceArray all (- limit) ;;
  reverseArray recent.

(** The [filters] object: each key may be absent. *)
Module Filters.
Record t : Type := {
  owner : option string;
  previousOwner : option string;
  startTime : option Z;
  endTime : option Z
}.
Definition empty : t :=
  {| owner := None; previousOwner := None; startTime := None; endTime := None |}.
End Filters.

(** [if (filters.k) { transactions = transactions.filter(p) }] *)
Definition filterIf {V} (truthy : V -> bool) (v : option V) (p : V -> Event -> bool)
    (transactions : nat) : M nat :=
  match v with
  | Some x => if truthy x then filterArray transactions (p x) else ret transactions
  | None => ret transactions
  end.

Definition ownerIncludes (wanted : string) (tx : Event) : bool :=
  Js.truthy_string tx.(owner)
  && Js.includes (Js.toLowerCase tx.(owner)) (Js.toLowerCase wanted).

Definition previousOwnerIncludes (wanted : string) (tx : Event) : bool :=
  match tx.(previousOwner) with
  | Some p => Js.truthy_string p && Js.includes (Js.toLowerCase p) (Js.toLowerCase wanted)
  | None => false
  end.

Definition notBefore (startTime : Z) (tx : Event) : bool :=
  Js.parseInt startTime <=? tx.(timestamp).

Definition notAfter (endTime : Z) (tx : Event) : bool :=
  tx.(timestamp) <=? Js.parseInt endTime.

(** [(a, b) => b.timestamp - a.timestamp] *)
Definition byTimestampDesc (a b : Event) : Z := b.(timestamp) - a.(timestamp).

(** [filters = {}] when the argument is [undefined]. *)
Definition getAllTransactions (filters : option Filters.t) : M nat :=
  let filters := default Filters.empty filters in
  all <- thisAllTransactions ;;
  transactions <- spread all ;;
  transactions <- filterIf Js.truthy_string (Filters.owner filters) ownerIncludes transactions ;;
  transactions <- filterIf Js.truthy_string (Filters.previousOwner filters)
                    previousOwnerIncludes transactions ;;
  transactions <- filterIf Js.truthy_number (Filters.startTime filters) notBefore transactions ;;
  transactions <- filterIf Js.truthy_number (Filters.endTime filters) notAfter transactions ;;
  _ <- sortArray transactions byTimestampDesc ;;
  ret transactions.

(** ** Sequences of calls *)

Inductive Call : Type :=
| CreateProduct (productId : string) (metadata : option string) (manufacturerPublicKey : string)
| TransferOwnership (productId currentOwner nextOwner : string)
| RecordRepair (productId repairOwner : string) (repairMetadata : option string)
| GetProductHistory (productId : string)
| GetRecentTransactions (limit : option Z)
| GetAllTransactions (filters : option Filters.t).

(** What a call hands back: a receipt object or an array. *)
Inductive Value : Type :=
| VReceipt (r : Receipt.t)
| VArray (a : nat).

Definition fmapM {A B} (f : A -> B) (m : M A) : M B := x <- m ;; ret (f x).

Definition run (c : Call) (env : Env) : M Value :=
  match c with
  | CreateProduct p md o => fmapM VReceipt (createProduct p md o env)
  | TransferOwnership p c n => fmapM VReceipt (transferOwnership p c n env)
  | RecordRepair p o md => fmapM VReceipt (recordRepair p o md env)
  | GetProductHistory p => fmapM VArray (getProductHistory p)
  | GetRecentTransactions l => fmapM VArray (getRecentTransactions l)
  | GetAllTransactions f => fmapM VArray (getAllTransactions f)
  end.

(** The store after a sequence of calls, each with its own outside world. *)
Definition exec (calls : list (Call * Env)) (s : Store) : Store :=
  fold_left (fun s ce => snd (run (fst ce) (snd ce) s)) calls s.

(** The contents of a product's chain and of the global log. *)
Definition chainOf (s : Store) (productId : string) : option (list Event) :=
  match productHistory s !! productId with
  | Some history => arrays s !! history
  | None => None
  end.

Definition globalLog (s : Store) : list Event :=
  default [] (arrays s !! allTransactions s).

(** ** The encoding as the specification words it *)

Module Base58Spec.

(** The buffer read as a big unsigned base-256 integer. *)
Definition value (bytes : list byte) : N :=
  fold_left (fun acc b => (acc * 256 + Byte.to_N b)%N) bytes 0%N.

(** [divide58 n acc out]: dividing [n] by 58 until it reaches zero, and
    prepending the alphabet character of each remainder to [acc], gives
    [out]. *)
Inductive divide58 : N -> string -> string -> Prop :=
| divide58_zero acc : divide58 0 acc acc
| divide58_step n c acc out :
    (0 < n)%N ->
    String.get (N.to_nat (n mod 58)) ALPHABET = Some c ->
    divide58 (n / 58) (String c acc) out ->
    divide58 n acc out.

(** The number of leading zero bytes. *)
Fixpoint leadingZeros (bytes : list byte) : nat :=
  match bytes with
  | x00 :: rest => S (leadingZeros rest)
  | _ => O
  end.

(** The alphabet's symbol for zero. *)
Definition zeroSymbol : ascii := "1"%char.

Definition encodes (bytes : list byte) (out : string) : Prop :=
  exists body,
    divide58 (value bytes) EmptyString body
    /\ out = Nat.iter (leadingZeros bytes) (String zeroSymbol) body.

End Base58Spec.

(** A character of the 58-character alphabet. *)
Definition inAlphabet (c : ascii) : Prop :=
  exists i, String.get i ALPHABET = Some c.

Definition overAlphabet (s : string) : Prop :=
  Forall inAlphabet (list_ascii_of_string s).

(** ** Invariants of the store *)

(** The references held by the service point into the heap, and no two of
    them name the same array. *)
Record wellFormed (s : Store) : Prop := {
  wf_all : (allTransactions s < length (arrays s))%nat;
  wf_history : forall p a, productHistory s !! p = Some a ->
                 (a < length (arrays s))%nat /\ a <> allTransactions s;
  wf_distinct : forall p q a, productHistory s !! p = Some a ->
                  productHistory s !! q = Some a -> p = q
}.

(** What an event must satisfy given the event [d] just before it. *)
Definition custodyStep (d e : Event) : Prop :=
  (e.(type) = Transfer -> e.(previousOwner) = Some d.(owner))
  /\ (e.(type) = Repair -> e.(owner) = d.(owner)).

(** The chain-of-custody invariant of one chain. *)
Definition chainOfCustody (c : list Event) : Prop :=
  (exists first, c !! 0%nat = Some first
                 /\ first.(type) = Manufacture /\ first.(previousOwner) = None)
  /\ forall (i : nat) d e, c !! i = Some d -> c !! S i = Some e -> custodyStep d e.

Definition allChainsInCustody (s : Store) : Prop :=
  forall p a, productHistory s !! p = Some a ->
    exists c, arrays s !! a = Some c /\ chainOfCustody c.

(** [s'] differs from [s] only by arrays allocated after [s]. *)
Definition onlyAllocates (s s' : Store) : Prop :=
  productHistory s' = productHistory s
  /\ allTransactions s' = allTransactions s
  /\ exists fresh, arrays s' = (arrays s ++ fresh)%list.

Definition storeInvariant (s : Store) : Prop :=
  wellFormed s /\ allChainsInCustody s.

(** How one call can change the store: it allocates result arrays only, it
    starts a new chain, or it appends to an existing chain.  In the last two
    cases the event also goes to the end of the global log. *)
Inductive stepEffect (s : Store) (env : Env) : Store -> Prop :=
| effect_allocate s' :
    onlyAllocates s s' -> stepEffect s env s'
| effect_create p e :
    productHistory s !! p = None ->
    e.(type) = Manufacture -> e.(previousOwner) = None ->
    e.(timestamp) = now env ->
    stepEffect s env
      {| arrays := (<[allTransactions s := (globalLog s ++ [e])%list]> (arrays s) ++ [[e]])%list;
         productHistory := <[p := length (arrays s)]> (productHistory s);
         allTransactions := allTransactions s |}
| effect_append p a records latest e :
    productHistory s !! p = Some a ->
    arrays s !! a = Some records ->
    last records = Some latest ->
    custodyStep latest e ->
    e.(timestamp) = now env ->
    stepEffect s env
      {| arrays := <[allTransactions s := (globalLog s ++ [e])%list]>
                     (<[a := (records ++ [e])%list]> (arrays s));
         productHistory := productHistory s;
         allTransactions := allTransactions s |}.

(** The filter a [filterIf] step applies: the predicate when the value is
    truthy, nothing otherwise. *)
Definition applied {V} (truthy : V -> bool) (v : option V) (p : V -> Event -> bool)
    (tx : Event) : bool :=
  match v with
  | Some x => if truthy x then p x tx else true
  | None => true
  end.

(** The events a query with [filters] keeps. *)
Definition keeps (filters : Filters.t) (tx : Event) : bool :=
  applied Js.truthy_string (Filters.owner filters) ownerIncludes tx
  && applied Js.truthy_string (Filters.previousOwner filters) previousOwnerIncludes tx
  && applied Js.truthy_number (Filters.startTime filters) notBefore tx
  && applied Js.truthy_number (Filters.endTime filters) notAfter tx.

(** Newest first: timestamps never increase along the list. *)
Definition newestFirst (l : list Event) : Prop :=
  StronglySorted (fun a b => b.(timestamp) <= a.(timestamp)) l.

(** Oldest first: timestamps never decrease along the list. *)
Definition oldestFirst (l : list Event) : Prop :=
  StronglySorted (fun a b => a.(timestamp) <= b.(timestamp)) l.

(** The events of [l] stamped [t], in the order of [l]. *)
Definition stamped (t : Z) (l : list Event) : list Event :=
  List.filter (fun e => e.(timestamp) =? t) l.

(** The clock readings of a sequence of calls never go back. *)
Definition clockNeverGoesBack (calls : list (Call * Env)) : Prop :=
  StronglySorted Z.le ((fun ce => now (snd ce)) <$> calls).

(** ** Reading objects by property name *)

Inductive JsValue : Type :=
| JsString (s : string)
| JsNumber (z : Z).

Definition kindName (k : Kind) : string :=
  match k with
  | Manufacture => "Manufacture"
  | Transfer => "Transfer"
  | Repair => "Repair"
  end.

(** [tx[key]] on a transaction record; [None] is [undefined]. *)
Definition eventGet (tx : Event) (key : string) : option JsValue :=
  if decide (key = "type") then Some (JsString (kindName tx.(type)))
  else if decide (key = "timestamp") then Some (JsNumber tx.(timestamp))
  else if decide (key = "owner") then Some (JsString tx.(owner))
  else if decide (key = "previousOwner") then JsString <$> tx.(previousOwner)
  else if decide (key = "metadata") then JsString <$> tx.(metadata)
  else if decide (key = "productId") then Some (JsString tx.(productId))
  else if decide (key = "signature") then Some (JsString tx.(signature))
  else None.

(** [r[key]] on the object a mutation returns. *)
Definition receiptGet (r : Receipt.t) (key : string) : option JsValue :=
  if decide (key = "signature") then Some (JsString (Receipt.signature r))
  else if decide (key = "account") then JsString <$> Receipt.account r
  else None.

(** The returned object is the event: it reads the same under every key. *)
Definition returnsEvent (r : Receipt.t) (tx : Event) : Prop :=
  forall key, receiptGet r key = eventGet tx key.

(** ** The filters as the specification words them *)

Module QuerySpec.

(** Case-insensitive substring match of [wanted] against [s]. *)
Definition substringCI (wanted s : string) : bool :=
  Js.includes (Js.toLowerCase s) (Js.toLowerCase wanted).

(** The conjunction of all provided filters. *)
Definition matches (filters : Filters.t) (tx : Event) : bool :=
  match Filters.owner filters with
  | Some wanted => substringCI wanted tx.(owner)
  | None => true
  end
  && match Filters.previousOwner filters with
     | Some wanted =>
         match tx.(previousOwner) with
         | Some p => substringCI wanted p
         | None => false
         end
     | None => true
     end
  && match Filters.startTime filters with
     | Some t => t <=? tx.(timestamp)
     | None => true
     end
  && match Filters.endTime filters with
     | Some t => tx.(timestamp) <=? t
     | None => true
     end.

(** A value counts as provided only when it is truthy. *)
Definition providedString (v : option string) : option string :=
  match v with
  | Some w => if Js.truthy_string w then Some w else None
  | None => None
  end.

Definition providedNumber (v : option Z) : option Z :=
  match v with
  | Some t => if Js.truthy_number t then Some t else None
  | None => None
  end.

Definition provided (filters : Filters.t) : Filters.t :=
  {| Filters.owner := providedString (Filters.owner filters);
     Filters.previousOwner := providedString (Filters.previousOwner filters);
     Filters.startTime := providedNumber (Filters.startTime filters);
     Filters.endTime := providedNumber (Filters.endTime filters) |}.

End QuerySpec.

Definition isMutation (c : Call) : bool :=
  match c with
  | CreateProduct _ _ _ | TransferOwnership _ _ _ | RecordRepair _ _ _ => true
  | _ => false
  end.

Definition isQuery (c : Call) : bool := negb (isMutation c).

(** The product a mutation is about, and the kind of event it appends. *)
Definition productOf (c : Call) : string :=
  match c with
  | CreateProduct p _ _ | TransferOwnership p _ _ | RecordRepair p _ _ => p
  | GetProductHistory p => p
  | _ => EmptyString
  end.

Definition kindOf (c : Call) : Kind :=
  match c with
  | TransferOwnership _ _ _ => Transfer
  | RecordRepair _ _ _ => Repair
  | _ => Manufacture
  end.

(** ** Sample worlds and call sequences *)

Module Sample.

(** The network is unreachable; the random source yields [seed] bytes. *)
Definition offline (t : Z) (seed : byte) : Env :=
  {| getLatestBlockhash := Rejected (Error "fetch failed");
     sendRawTransaction := Rejected (Error "fetch failed");
     randomBytes := fun n => replicate n seed;
     randomBytes_length := fun n => length_replicate n seed;
     now := t;
     generatedAccount := "7xKXtg2CW87d97TXJSDpbD5jBkheTqA83TZRuJosgAsU" |}.

(** The network confirms the transaction with [sig]. *)
Definition online (t : Z) (sig : string) : Env :=
  {| getLatestBlockhash := Fulfilled "EkSnNWid2cvwEVnVx9aBqawnmiCNiDgp3gUdkDPTKN1N";
     sendRawTransaction := Fulfilled sig;
     randomBytes := fun n => replicate n x00;
     randomBytes_length := fun n => length_replicate n x00;
     now := t;
     generatedAccount := "7xKXtg2CW87d97TXJSDpbD5jBkheTqA83TZRuJosgAsU" |}.

Definition created : list (Call * Env) :=
  [ (CreateProduct "BIKE-001" None "A", online 1000 "sig1") ].

(** Create, transfer to B, a stale transfer by A, a repair by B. *)
Definition bike : list (Call * Env) :=
  [ (CreateProduct "BIKE-001" None "A", online 1000 "sig1");
    (TransferOwnership "BIKE-001" "A" "B", online 2000 "sig2");
    (TransferOwnership "BIKE-001" "A" "C", online 3000 "sig3");
    (RecordRepair "BIKE-001" "B" (Some "brake service"), online 4000 "sig4") ].

Definition bikeLatest : Event :=
  {| type := Repair; timestamp := 4000; owner := "B"; previousOwner := None;
     metadata := Some "brake service"; productId := "BIKE-001"; signature := "sig4" |}.

Definition bikeChain : list Event :=
  [ {| type := Manufacture; timestamp := 1000; owner := "A"; previousOwner := None;
       metadata := Some EmptyString; productId := "BIKE-001"; signature := "sig1" |};
    {| type := Transfer; timestamp := 2000; owner := "B"; previousOwner := Some "A";
       metadata := None; productId := "BIKE-001"; signature := "sig2" |};
    bikeLatest ].

(** Two products created while the clock is set back in between. *)
Definition clockSetBack : list (Call * Env) :=
  [ (CreateProduct "BIKE-001" None "A", online 5000 "sig1");
    (CreateProduct "BIKE-002" None "A", online 3000 "sig2") ].

Definition onlyPreviousOwner (wanted : string) : Filters.t :=
  {| Filters.owner := None; Filters.previousOwner := Some wanted;
     Filters.startTime := None; Filters.endTime := None |}.

Definition onlyOwner (wanted : string) : Filters.t :=
  {| Filters.owner := Some wanted; Filters.previousOwner := None;
     Filters.startTime := None; Filters.endTime := None |}.

End Sample.

(** Unfolds the store monad down to functions on stores. *)
Ltac unfold_monad :=
  unfold fmapM, push, spread, sliceArray, filterArray, reverseArray, sortArray,
    bind, ret, throw, lift, mapGet, mapSet, thisAllTransactions,
    newArray, readArray, writeArray.

(** ** Further notions used to describe the service *)

(** The owner recorded by the last event of a product's chain. *)
Definition currentOwner (s : Store) (p : string) : option string :=
  match chainOf s p with
  | Some c => owner <$> last c
  | None => None
  end.

(** The owner a mutation acts for, and the owner it leaves. *)
Definition actingOwner (c : Call) : option string :=
  match c with
  | TransferOwnership _ cur _ => Some cur
  | RecordRepair _ o _ => Some o
  | _ => None
  end.

Definition ownerAfter (c : Call) : string :=
  match c with
  | CreateProduct _ _ o => o
  | TransferOwnership _ _ n => n
  | RecordRepair _ o _ => o
  | _ => EmptyString
  end.

(** The inputs on which the model of [toLowerCase] and [parseInt] is the
    code's: filter strings in ASCII and bounds that are safe integers; owners
    and previous owners of the logged events in ASCII. *)
Definition modelledFilters (filters : Filters.t) : bool :=
  from_option Js.isAscii true (Filters.owner filters)
  && from_option Js.isAscii true (Filters.previousOwner filters)
  && from_option Js.isSafeInteger true (Filters.startTime filters)
  && from_option Js.isSafeInteger true (Filters.endTime filters).

Definition asciiEvent (tx : Event) : bool :=
  Js.isAscii tx.(owner) && from_option Js.isAscii true tx.(previousOwner).

Definition asciiLog (l : list Event) : bool := forallb asciiEvent l.

(** The events of a log that belong to product [p], in the order of the log. *)
Definition eventsOf (p : string) (l : list Event) : list Event :=
  List.filter (fun e => bool_decide (e.(productId) = p)) l.

(** The messages of the three errors the service throws. *)
Definition domainError (msg : string) : Prop :=
  msg = "Product ID already exists"
  \/ msg = "Product ID does not exist"
  \/ exists actual supplied, msg = ownershipFailed actual supplied.

(** The number of ['1'] characters a string starts with. *)
Fixpoint leadingOnesOf (s : string) : nat :=
  match s with
  | String "1" rest => S (leadingOnesOf rest)
  | _ => O
  end.

(** The position of a character in a string. *)
Fixpoint indexIn (c : ascii) (s : string) : option N :=
  match s with
  | EmptyString => None
  | String d rest =>
      if Ascii.eqb c d then Some 0%N else N.succ <$> indexIn c rest
  end.

(** A text read as a base-58 numeral over the alphabet, most significant
    character first, continuing from [acc]. *)
Fixpoint readBase58 (s : string) (acc : N) : N :=
  match s with
  | EmptyString => acc
  | String c rest => readBase58 rest (acc * 58 + default 0%N (indexIn c ALPHABET))%N
  end.

(** The clock readings of a sequence of calls strictly increase. *)
Definition clockAlwaysAdvances (calls : list (Call * Env)) : Prop :=
  StronglySorted Z.lt ((fun ce => now (snd ce)) <$> calls).


(** * Properties *)

(** ** Base58 *)

Section Base58.

Lemma hexValue_hexChar_high (b : byte) :
  hexValue (hexChar (Byte.to_N b / 16)) = Some (Byte.to_N b / 16)%N.
Proof. destruct b; reflexivity. Qed.

Lemma hexValue_hexChar_low (b : byte) :
  hexValue (hexChar (Byte.to_N b mod 16)) = Some (Byte.to_N b mod 16)%N.
Proof. destruct b; reflexivity. Qed.

Lemma parseHexDigits_toHex (bytes : list byte) (acc : N) :
  parseHexDigits (toHex bytes) acc
  = Some (fold_left (fun a b => (a * 256 + Byte.to_N b)%N) bytes acc).
Proof.
  revert acc. induction bytes as [|b rest IH]; intros acc; [reflexivity|].
  cbn [toHex parseHexDigits fold_left].
  rewrite hexValue_hexChar_high, hexValue_hexChar_low, IH.
  do 2 f_equal.
  pose proof (N.div_mod (Byte.to_N b) 16). lia.
Qed.

Lemma BigInt_hex_toHex (bytes : list byte) :
  bytes <> [] -> BigInt_hex (toHex bytes) = Return (Base58Spec.value bytes).
Proof.
  intros Hne. destruct bytes as [|b rest]; [done|].
  unfold BigInt_hex, Base58Spec.value.
  rewrite parseHexDigits_toHex. reflexivity.
Qed.

Lemma alphabet_get (r : N) :
  (r < 58)%N -> exists c, String.get (N.to_nat r) ALPHABET = Some c.
Proof.
  intros Hr.
  assert (Hlt : (N.to_nat r < 58)%nat) by lia.
  revert Hlt. generalize (N.to_nat r) as i. intros i Hi.
  do 58 (destruct i as [|i]; [eexists; reflexivity|]). lia.
Qed.

(** The loop finishes within the fuel [encodeBase58] gives it, and what
    it returns is what repeated division yields. *)
Lemma encodeLoop_spec (fuel : nat) (num : N) (encoded : string) :
  (num < 2 ^ N.of_nat fuel)%N ->
  exists out, encodeLoop fuel num encoded = Return out
              /\ Base58Spec.divide58 num encoded out.
Proof.
  revert num encoded. induction fuel as [|fuel IH]; intros num encoded Hlt.
  - assert (num = 0%N) as -> by (cbn in Hlt; lia).
    exists encoded. split; [reflexivity | constructor].
  - cbn [encodeLoop]. destruct (0 <? num)%N eqn:Hpos.
    + apply N.ltb_lt in Hpos.
      destruct (alphabet_get (num mod 58)) as [c Hc]; [apply N.mod_lt; lia|].
      destruct (IH (num / 58)%N (prependAlphabet (num mod 58) encoded)) as (out & Hrun & Hspec).
      { apply N.Div0.div_lt_upper_bound.
        rewrite Nat2N.inj_succ, N.pow_succ_r' in Hlt. lia. }
      exists out. split; [exact Hrun|].
      unfold prependAlphabet in Hspec. rewrite Hc in Hspec.
      econstructor; eauto.
    + apply N.ltb_ge in Hpos. assert (num = 0%N) as -> by lia.
      exists encoded. split; [reflexivity | constructor].
Qed.

Lemma leadingOnes_iter (bytes : list byte) (encoded : string) :
  leadingOnes bytes encoded
  = Nat.iter (Base58Spec.leadingZeros bytes) (String Base58Spec.zeroSymbol) encoded.
Proof.
  revert encoded. induction bytes as [|b rest IH]; intros encoded; [reflexivity|].
  destruct b; try reflexivity.
  cbn [leadingOnes Base58Spec.leadingZeros]. rewrite IH, Nat.iter_succ_r. reflexivity.
Qed.

Lemma divide58_functional (n : N) (acc o1 o2 : string) :
  Base58Spec.divide58 n acc o1 -> Base58Spec.divide58 n acc o2 -> o1 = o2.
Proof.
  intros H1. revert o2. induction H1 as [acc|n c acc out Hpos Hc _ IH]; intros o2 H2.
  - inversion H2; subst; [reflexivity | lia].
  - inversion H2; subst; [lia|].
    apply IH. congruence.
Qed.

(** Supporting C5: on every non-empty buffer the code returns the string the
    specified algorithm describes. *)
Lemma encodeBase58_refines_spec (bytes : list byte) :
  bytes <> [] ->
  exists out, encodeBase58 bytes = Return out /\ Base58Spec.encodes bytes out.
Proof.
  intros Hne. unfold encodeBase58. rewrite (BigInt_hex_toHex _ Hne). cbn [cbind].
  destruct (encodeLoop_spec (N.to_nat (N.size (Base58Spec.value bytes)))
              (Base58Spec.value bytes) EmptyString) as (body & Hrun & Hspec).
  { rewrite N2Nat.id. apply N.size_gt. }
  rewrite Hrun. cbn [cbind]. eexists. split; [reflexivity|].
  exists body. split; [exact Hspec | apply leadingOnes_iter].
Qed.

(** The specified algorithm determines its output. *)
Lemma encodes_functional (bytes : list byte) (o1 o2 : string) :
  Base58Spec.encodes bytes o1 -> Base58Spec.encodes bytes o2 -> o1 = o2.
Proof.
  intros (b1 & H1 & ->) (b2 & H2 & ->).
  by rewrite (divide58_functional _ _ _ _ H1 H2).
Qed.

End Base58.

Section Base58Cases.

Lemma value_zeros (n : nat) : Base58Spec.value (replicate n x00) = 0%N.
Proof.
  unfold Base58Spec.value. induction n as [|n IH]; [reflexivity|].
  cbn [replicate fold_left]. exact IH.
Qed.

Lemma leadingZeros_zeros (n : nat) : Base58Spec.leadingZeros (replicate n x00) = n.
Proof. induction n as [|n IH]; [reflexivity|]. cbn. by rewrite IH. Qed.

(** Supporting C5: a buffer of [n >= 1] zero bytes encodes to [n] times ['1']. *)
Lemma encodeBase58_zeros (n : nat) :
  (1 <= n)%nat ->
  encodeBase58 (replicate n x00) = Return (Nat.iter n (String "1"%char) EmptyString).
Proof.
  intros Hn. unfold encodeBase58.
  rewrite BigInt_hex_toHex by (destruct n; [lia | done]).
  cbn [cbind]. rewrite value_zeros.
  change (encodeLoop _ 0%N EmptyString) with (@Return string EmptyString).
  cbn [cbind]. by rewrite leadingOnes_iter, leadingZeros_zeros.
Qed.

(** Supporting C5: the single byte 0x3A encodes to ["21"]. *)
Lemma encodeBase58_0x3A : encodeBase58 [x3a] = Return "21".
Proof. reflexivity. Qed.

Lemma inAlphabet_prepend (r : N) (encoded : string) :
  (r < 58)%N -> overAlphabet encoded -> overAlphabet (prependAlphabet r encoded).
Proof.
  intros Hr Henc. unfold prependAlphabet.
  destruct (alphabet_get r Hr) as [c Hc]. rewrite Hc.
  constructor; [by exists (N.to_nat r) | exact Henc].
Qed.

Lemma encodeLoop_overAlphabet (fuel : nat) (num : N) (encoded out : string) :
  overAlphabet encoded -> encodeLoop fuel num encoded = Return out -> overAlphabet out.
Proof.
  revert num encoded. induction fuel as [|fuel IH]; intros num encoded Henc; cbn [encodeLoop];
    destruct (0 <? num)%N eqn:Hpos; try discriminate; try (intros [= <-]; exact Henc).
  apply IH, inAlphabet_prepend; [apply N.mod_lt; lia | exact Henc].
Qed.

Lemma leadingOnes_overAlphabet (bytes : list byte) (encoded : string) :
  overAlphabet encoded -> overAlphabet (leadingOnes bytes encoded).
Proof.
  revert encoded. induction bytes as [|b rest IH]; intros encoded Henc; [exact Henc|].
  destruct b; try exact Henc.
  cbn [leadingOnes]. apply IH. constructor; [by exists 0%nat | exact Henc].
Qed.

Lemma encodeBase58_overAlphabet (bytes : list byte) (out : string) :
  encodeBase58 bytes = Return out -> overAlphabet out.
Proof.
  unfold encodeBase58. destruct (BigInt_hex (toHex bytes)) as [num| |]; try discriminate.
  cbn [cbind].
  destruct (encodeLoop _ num EmptyString) as [encoded| |] eqn:Hloop; try discriminate.
  cbn [cbind]. intros [= <-].
  apply leadingOnes_overAlphabet.
  eapply encodeLoop_overAlphabet; [|exact Hloop]. constructor.
Qed.

End Base58Cases.

(** C5 (failing input): on the empty buffer the hex literal handed to
    [BigInt] has no digits, so [encodeBase58] throws a [SyntaxError], whereas
    the specified algorithm yields the empty string. *)
Theorem encodeBase58_empty_buffer_throws :
  encodeBase58 [] = Throw (SyntaxError "Cannot convert 0x to a BigInt")
  /\ Base58Spec.encodes [] EmptyString.
Proof.
  split; [reflexivity|].
  exists EmptyString. split; [constructor | reflexivity].
Qed.

Lemma mint_cases (env : Env) (description : string) :
  exists signature,
    generateTransactionSignature env description = Return signature
    /\ forall reason,
         anchorWrite env = Throw reason ->
         length (randomBytes env 64) = 64%nat
         /\ encodeBase58 (randomBytes env 64) = Return signature
         /\ Base58Spec.encodes (randomBytes env 64) signature
         /\ overAlphabet signature.
Proof.
  assert (Hne : randomBytes env 64 <> []).
  { intros Hnil. pose proof (randomBytes_length env 64) as Hlen.
    rewrite Hnil in Hlen. discriminate. }
  destruct (encodeBase58_refines_spec _ Hne) as (out & Hout & Hspec).
  unfold generateTransactionSignature.
  destruct (anchorWrite env) as [sig|reason|] eqn:Hanchor.
  - exists sig. split; [reflexivity|]. intros r [=].
  - exists out. cbn [try_catch]. rewrite Hout. split; [reflexivity|].
    intros _ _. split; [apply randomBytes_length|].
    split; [reflexivity|]. split; [exact Hspec|].
    by apply (encodeBase58_overAlphabet (randomBytes env 64)).
  - exfalso. unfold anchorWrite in Hanchor.
    destruct (getLatestBlockhash env), (sendRawTransaction env); discriminate.
Qed.

(** C4: minting a signature never fails to its caller.  For every outside
    world and every description [generateTransactionSignature] returns a
    string; when the anchor write throws, whatever the reason, the string is
    the base58 encoding of the 64 bytes drawn from the random source, a text
    over the 58-character alphabet. *)
Theorem generateTransactionSignature_never_fails (env : Env) (description : string) :
  exists signature,
    generateTransactionSignature env description = Return signature
    /\ forall reason,
         anchorWrite env = Throw reason ->
         length (randomBytes env 64) = 64%nat
         /\ encodeBase58 (randomBytes env 64) = Return signature
         /\ Base58Spec.encodes (randomBytes env 64) signature
         /\ overAlphabet signature.
Proof. exact (mint_cases env description). Qed.

Lemma generateTransactionSignature_never_fails_witness :
  exists signature,
    generateTransactionSignature (Sample.offline 4000 x01) "Record repair: BIKE-001"
    = Return signature
    /\ forall reason,
         anchorWrite (Sample.offline 4000 x01) = Throw reason ->
         length (randomBytes (Sample.offline 4000 x01) 64) = 64%nat
         /\ encodeBase58 (randomBytes (Sample.offline 4000 x01) 64) = Return signature
         /\ Base58Spec.encodes (randomBytes (Sample.offline 4000 x01) 64) signature
         /\ overAlphabet signature.
Proof.
  apply (generateTransactionSignature_never_fails (Sample.offline 4000 x01)
           "Record repair: BIKE-001").
Defined.


(** ** The mutations, step by step *)

Section Steps.

Lemma mint_returns (env : Env) (description : string) :
  exists signature, generateTransactionSignature env description = Return signature.
Proof.
  destruct (mint_cases env description) as (sig & Hsig & _).
  by exists sig.
Qed.

Lemma createProduct_existing s p md o env a :
  productHistory s !! p = Some a ->
  createProduct p md o env s = (Throw (Error "Product ID already exists"), s).
Proof. intros Hp. unfold createProduct. unfold_monad. by rewrite Hp. Qed.

Lemma createProduct_fresh s p md o env :
  wellFormed s ->
  productHistory s !! p = None ->
  exists sig e s',
    createProduct p md o env s
    = (Return {| Receipt.signature := sig; Receipt.account := Some (generatedAccount env) |}, s')
    /\ e = {| type := Manufacture; timestamp := now env; owner := o;
              previousOwner := None; metadata := Some (orEmpty md);
              productId := p; signature := sig |}
    /\ productHistory s' = <[p := length (arrays s)]> (productHistory s)
    /\ allTransactions s' = allTransactions s
    /\ arrays s' = (<[allTransactions s := (globalLog s ++ [e])%list]> (arrays s) ++ [[e]])%list.
Proof.
  intros Hwf Hp.
  destruct (mint_returns env ("Create product: " +:+ p)) as [sig Hsig].
  eexists sig, _, _. unfold createProduct. unfold_monad. rewrite Hp, Hsig. cbn.
  split; [reflexivity|]. split; [reflexivity|]. do 2 (split; [reflexivity|]).
  pose proof (wf_all _ Hwf) as Hall.
  rewrite lookup_app_l by exact Hall.
  rewrite insert_app_l by exact Hall. reflexivity.
Qed.


Lemma transfer_unknown s p c n env :
  productHistory s !! p = None ->
  transferOwnership p c n env s = (Throw (Error "Product ID does not exist"), s).
Proof. intros Hp. unfold transferOwnership. unfold_monad. by rewrite Hp. Qed.

Lemma transfer_mismatch s p c n env a records latest :
  productHistory s !! p = Some a ->
  arrays s !! a = Some records ->
  last records = Some latest ->
  latest.(owner) <> c ->
  transferOwnership p c n env s
  = (Throw (Error (ownershipFailed latest.(owner) c)), s).
Proof.
  intros Hp Ha Hlast Hne. unfold transferOwnership. unfold_monad.
  rewrite Hp, Ha. cbn [from_option id]. rewrite Hlast. by rewrite decide_True.
Qed.

Lemma transfer_success s p c n env a records latest :
  wellFormed s ->
  productHistory s !! p = Some a ->
  arrays s !! a = Some records ->
  last records = Some latest ->
  latest.(owner) = c ->
  exists sig e s',
    transferOwnership p c n env s
    = (Return {| Receipt.signature := sig; Receipt.account := None |}, s')
    /\ e = {| type := Transfer; timestamp := now env; owner := n;
              previousOwner := Some c; metadata := None;
              productId := p; signature := sig |}
    /\ productHistory s' = productHistory s
    /\ allTransactions s' = allTransactions s
    /\ arrays s' = <[allTransactions s := (globalLog s ++ [e])%list]>
                     (<[a := (records ++ [e])%list]> (arrays s)).
Proof.
  intros Hwf Hp Ha Hlast Heq.
  destruct (mint_cases env ("Transfer product: " +:+ p +:+ " from "
                            +:+ Js.slice0 8 c +:+ " to " +:+ Js.slice0 8 n)) as (sig & Hsig & _).
  destruct (wf_history _ Hwf _ _ Hp) as [Hlt Hneq].
  eexists sig, _, _. unfold transferOwnership. unfold_monad.
  rewrite Hp, Ha. cbn [from_option id]. rewrite Hlast.
  destruct (decide (owner latest <> _)) as [Hc|_]; [congruence|].
  rewrite Hsig. cbn.
  split; [reflexivity|]. split; [reflexivity|].
  split; [by apply insert_id|]. split; [reflexivity|].
  cbn. rewrite Ha. cbn [from_option id]. unfold globalLog.
  by rewrite list_lookup_insert_ne.
Qed.

Lemma repair_unknown s p o md env :
  productHistory s !! p = None ->
  recordRepair p o md env s = (Throw (Error "Product ID does not exist"), s).
Proof. intros Hp. unfold recordRepair. unfold_monad. by rewrite Hp. Qed.

Lemma repair_mismatch s p o md env a records latest :
  productHistory s !! p = Some a ->
  arrays s !! a = Some records ->
  last records = Some latest ->
  latest.(owner) <> o ->
  recordRepair p o md env s
  = (Throw (Error (ownershipFailed latest.(owner) o)), s).
Proof.
  intros Hp Ha Hlast Hne. unfold recordRepair. unfold_monad.
  rewrite Hp, Ha. cbn [from_option id]. rewrite Hlast. by rewrite decide_True.
Qed.

Lemma repair_success s p o md env a records latest :
  wellFormed s ->
  productHistory s !! p = Some a ->
  arrays s !! a = Some records ->
  last records = Some latest ->
  latest.(owner) = o ->
  exists sig e s',
    recordRepair p o md env s
    = (Return {| Receipt.signature := sig; Receipt.account := None |}, s')
    /\ e = {| type := Repair; timestamp := now env; owner := o;
              previousOwner := None; metadata := md;
              productId := p; signature := sig |}
    /\ productHistory s' = productHistory s
    /\ allTransactions s' = allTransactions s
    /\ arrays s' = <[allTransactions s := (globalLog s ++ [e])%list]>
                     (<[a := (records ++ [e])%list]> (arrays s)).
Proof.
  intros Hwf Hp Ha Hlast Heq.
  destruct (mint_cases env ("Record repair: " +:+ p)) as (sig & Hsig & _).
  destruct (wf_history _ Hwf _ _ Hp) as [Hlt Hneq].
  eexists sig, _, _. unfold recordRepair. unfold_monad.
  rewrite Hp, Ha. cbn [from_option id]. rewrite Hlast.
  destruct (decide (owner latest <> _)) as [Hc|_]; [congruence|].
  rewrite Hsig. cbn.
  split; [reflexivity|]. split; [reflexivity|].
  split; [by apply insert_id|]. split; [reflexivity|].
  cbn. rewrite Ha. cbn [from_option id]. unfold globalLog.
  by rewrite list_lookup_insert_ne.
Qed.

End Steps.

(** ** Sorting by timestamp *)

Section Sorting.

Lemma insertBy_perm x l : Permutation (insertBy byTimestampDesc x l) (x :: l).
Proof.
  induction l as [|y l IH]; cbn [insertBy]; [done|].
  destruct (0 <? byTimestampDesc x y); [|done].
  rewrite IH. apply perm_swap.
Qed.

Lemma sortBy_perm l : Permutation (sortBy byTimestampDesc l) l.
Proof.
  induction l as [|x l IH]; cbn [sortBy]; [done|].
  by rewrite insertBy_perm, IH.
Qed.

Lemma insertBy_newestFirst x l :
  newestFirst l -> newestFirst (insertBy byTimestampDesc x l).
Proof.
  unfold newestFirst. induction 1 as [|y l Hl IH Hy]; cbn [insertBy].
  - repeat constructor.
  - unfold byTimestampDesc at 1. destruct (0 <? timestamp y - timestamp x) eqn:Hcmp.
    + apply Z.ltb_lt in Hcmp. constructor; [exact IH|].
      rewrite insertBy_perm. constructor; [lia | exact Hy].
    + apply Z.ltb_ge in Hcmp. constructor; [by constructor|].
      constructor; [lia|].
      eapply Forall_impl; [exact Hy|]. cbn. intros z Hz. lia.
Qed.

Lemma sortBy_newestFirst l : newestFirst (sortBy byTimestampDesc l).
Proof.
  induction l as [|x l IH]; cbn [sortBy]; [constructor|].
  by apply insertBy_newestFirst.
Qed.

Lemma insertBy_stamped t x l :
  stamped t (insertBy byTimestampDesc x l) = stamped t (x :: l).
Proof.
  unfold stamped. induction l as [|y l IH]; cbn [insertBy]; [done|].
  unfold byTimestampDesc at 1. destruct (0 <? timestamp y - timestamp x) eqn:Hcmp; [|done].
  apply Z.ltb_lt in Hcmp. cbn [List.filter] in *. rewrite IH.
  destruct (timestamp x =? t) eqn:Hx, (timestamp y =? t) eqn:Hy; try done.
  apply Z.eqb_eq in Hx, Hy. lia.
Qed.

Lemma sortBy_stamped t l : stamped t (sortBy byTimestampDesc l) = stamped t l.
Proof.
  induction l as [|x l IH]; cbn [sortBy]; [done|].
  rewrite insertBy_stamped. unfold stamped in *. cbn [List.filter]. by rewrite IH.
Qed.

Lemma stamped_elem t x l : x ∈ stamped t l <-> x ∈ l /\ x.(timestamp) = t.
Proof.
  unfold stamped. rewrite !list_elem_of_In, filter_In, Z.eqb_eq. done.
Qed.

Lemma stamped_head x l : stamped x.(timestamp) (x :: l) = x :: stamped x.(timestamp) l.
Proof. unfold stamped. cbn [List.filter]. by rewrite Z.eqb_refl. Qed.

Lemma stamped_skip t x l : x.(timestamp) <> t -> stamped t (x :: l) = stamped t l.
Proof.
  intros Hne. unfold stamped. cbn [List.filter].
  by destruct (Z.eqb_spec (timestamp x) t).
Qed.

(** Two lists sorted newest first that agree on the events of every
    timestamp, in order, are equal. *)
Lemma newestFirst_stamped_unique l1 l2 :
  newestFirst l1 -> newestFirst l2 ->
  (forall t, stamped t l1 = stamped t l2) -> l1 = l2.
Proof.
  unfold newestFirst. intros H1. revert l2.
  induction H1 as [|x l1 Hl1 IH Hx]; intros l2 H2 Hsame.
  - destruct l2 as [|y l2]; [done|].
    specialize (Hsame y.(timestamp)). rewrite stamped_head in Hsame. discriminate.
  - destruct H2 as [|y l2 Hl2 Hy].
    { specialize (Hsame x.(timestamp)). rewrite stamped_head in Hsame. discriminate. }
    rewrite Forall_forall in Hx, Hy.
    assert (Hxy : x.(timestamp) = y.(timestamp)).
    { assert (x ∈ y :: l2) as Hxin.
      { eapply (proj1 (stamped_elem x.(timestamp) x (y :: l2))).
        rewrite <-Hsame, stamped_head. by left. }
      assert (y ∈ x :: l1) as Hyin.
      { eapply (proj1 (stamped_elem y.(timestamp) y (x :: l1))).
        rewrite Hsame, stamped_head. by left. }
      apply elem_of_cons in Hxin as [->|Hxin]; [done|].
      apply elem_of_cons in Hyin as [->|Hyin]; [done|].
      specialize (Hx _ Hyin). specialize (Hy _ Hxin). cbn in Hx, Hy. lia. }
    pose proof (Hsame x.(timestamp)) as Hhead.
    rewrite stamped_head, Hxy, stamped_head in Hhead.
    injection Hhead as -> Htail. f_equal. apply IH; [exact Hl2|].
    intros t. destruct (decide (y.(timestamp) = t)) as [<-|Hne]; [exact Htail|].
    specialize (Hsame t). by rewrite !stamped_skip in Hsame by done.
Qed.

Lemma filter_all {A} (l : list A) : List.filter (fun _ => true) l = l.
Proof. induction l as [|x l IH]; cbn; [done | by rewrite IH]. Qed.

Lemma filter_filter {A} (p q : A -> bool) (l : list A) :
  List.filter q (List.filter p l) = List.filter (fun x => p x && q x) l.
Proof.
  induction l as [|x l IH]; cbn; [done|].
  destruct (p x); cbn; [destruct (q x)|]; by rewrite IH.
Qed.

End Sorting.

(** ** The queries, step by step *)

Section Queries.

Lemma onlyAllocates_refl s : onlyAllocates s s.
Proof. repeat split. exists []. by rewrite app_nil_r. Qed.

Lemma onlyAllocates_lookup s s' (a : nat) :
  onlyAllocates s s' -> (a < length (arrays s))%nat -> arrays s' !! a = arrays s !! a.
Proof. intros (_ & _ & fresh & ->) Ha. by apply lookup_app_l. Qed.

Lemma onlyAllocates_new s0 s l :
  onlyAllocates s0 s ->
  onlyAllocates s0 {| arrays := (arrays s ++ [l])%list;
                      productHistory := productHistory s;
                      allTransactions := allTransactions s |}.
Proof.
  intros (Hp & Ha & fresh & Hs). repeat split; [done..|].
  exists (fresh ++ [l])%list. cbn. by rewrite Hs, <-app_assoc.
Qed.

Lemma onlyAllocates_write s0 s (a : nat) l :
  onlyAllocates s0 s -> (length (arrays s0) <= a)%nat ->
  onlyAllocates s0 {| arrays := <[a := l]> (arrays s);
                      productHistory := productHistory s;
                      allTransactions := allTransactions s |}.
Proof.
  intros (Hp & Ha & fresh & Hs) Hge. repeat split; [done..|].
  exists (<[(a - length (arrays s0))%nat := l]> fresh). cbn.
  by rewrite Hs, insert_app_r_alt.
Qed.

Lemma getProductHistory_store p s : snd (getProductHistory p s) = s.
Proof.
  unfold getProductHistory. unfold_monad. by destruct (productHistory s !! p).
Qed.

Lemma getRecentTransactions_spec limit s :
  getRecentTransactions limit s
  = (Return (length (arrays s)),
     {| arrays := (arrays s ++ [rev (Js.slice (- default 10 limit) (globalLog s))])%list;
        productHistory := productHistory s;
        allTransactions := allTransactions s |}).
Proof.
  unfold getRecentTransactions. unfold_monad. cbn. unfold globalLog.
  rewrite list_lookup_middle by done. cbn.
  by rewrite insert_app_r_alt, Nat.sub_diag by done.
Qed.

Lemma filterIf_spec {V} (truthy : V -> bool) (v : option V) (p : V -> Event -> bool)
    s0 s (a : nat) l :
  onlyAllocates s0 s ->
  (length (arrays s0) <= a)%nat ->
  arrays s !! a = Some l ->
  exists a' s',
    filterIf truthy v p a s = (Return a', s')
    /\ onlyAllocates s0 s'
    /\ (length (arrays s0) <= a')%nat
    /\ arrays s' !! a' = Some (List.filter (applied truthy v p) l).
Proof.
  intros Hs Hge Ha.
  assert (Hnone : exists a' s', @ret nat a s = (Return a', s') /\ onlyAllocates s0 s'
            /\ (length (arrays s0) <= a')%nat
            /\ arrays s' !! a' = Some (List.filter (fun _ => true) l)).
  { exists a, s. by rewrite filter_all. }
  unfold filterIf, applied. destruct v as [x|]; [|exact Hnone].
  destruct (truthy x); [|exact Hnone].
  eexists _, _. unfold_monad. rewrite Ha. cbn [from_option id].
  split; [reflexivity|]. split; [by apply onlyAllocates_new|].
  split.
  - destruct Hs as (_ & _ & fresh & ->). rewrite length_app. lia.
  - cbn. by rewrite list_lookup_middle.
Qed.

Lemma getAllTransactions_spec filters s :
  exists a s',
    getAllTransactions filters s = (Return a, s')
    /\ onlyAllocates s s'
    /\ arrays s' !! a
       = Some (sortBy byTimestampDesc
                 (List.filter (keeps (default Filters.empty filters)) (globalLog s))).
Proof.
  unfold getAllTransactions. generalize (default Filters.empty filters).
  clear filters. intros filters.
  set (s1 := {| arrays := (arrays s ++ [globalLog s])%list;
                productHistory := productHistory s;
                allTransactions := allTransactions s |}).
  assert (H1 : onlyAllocates s s1) by apply onlyAllocates_new, onlyAllocates_refl.
  assert (L1 : arrays s1 !! length (arrays s) = Some (globalLog s))
    by (by apply list_lookup_middle).
  destruct (filterIf_spec Js.truthy_string (Filters.owner filters) ownerIncludes
              s s1 _ _ H1 (le_n _) L1) as (a2 & s2 & E2 & H2 & G2 & L2).
  destruct (filterIf_spec Js.truthy_string (Filters.previousOwner filters)
              previousOwnerIncludes s s2 _ _ H2 G2 L2) as (a3 & s3 & E3 & H3 & G3 & L3).
  destruct (filterIf_spec Js.truthy_number (Filters.startTime filters) notBefore
              s s3 _ _ H3 G3 L3) as (a4 & s4 & E4 & H4 & G4 & L4).
  destruct (filterIf_spec Js.truthy_number (Filters.endTime filters) notAfter
              s s4 _ _ H4 G4 L4) as (a5 & s5 & E5 & H5 & G5 & L5).
  eexists a5, _.
  unfold bind at 1. unfold thisAllTransactions.
  unfold bind at 1. unfold spread, bind at 1, readArray, newArray. fold (globalLog s). fold s1.
  unfold bind at 1. rewrite E2.
  unfold bind at 1. rewrite E3.
  unfold bind at 1. rewrite E4.
  unfold bind at 1. rewrite E5.
  unfold_monad. rewrite L5. cbn [from_option id].
  split; [reflexivity|]. split; [by apply onlyAllocates_write|].
  cbn. rewrite list_lookup_insert_eq by (by eapply lookup_lt_Some).
  do 2 f_equal. rewrite !filter_filter. unfold keeps.
  apply List.filter_ext. intros tx. by rewrite !andb_assoc.
Qed.

End Queries.

(** ** The invariant holds after every sequence of calls *)

Section Invariant.

Lemma chainOfCustody_singleton e :
  e.(type) = Manufacture -> e.(previousOwner) = None -> chainOfCustody [e].
Proof.
  intros Ht Hp. split; [by exists e|].
  intros [|i] d e' _ He'; discriminate He'.
Qed.

Lemma chainOfCustody_last c :
  chainOfCustody c -> exists latest, last c = Some latest.
Proof.
  intros [(first & H0 & _) _]. destruct c as [|x c]; [discriminate|].
  destruct (last (x :: c)) eqn:Hlast; [by eexists|].
  by apply last_None in Hlast.
Qed.

Lemma chainOfCustody_snoc c latest e :
  chainOfCustody c -> last c = Some latest -> custodyStep latest e ->
  chainOfCustody (c ++ [e]).
Proof.
  intros [(first & H0 & Hfirst) Hadj] Hlast Hstep. split.
  - exists first. split; [by apply lookup_app_l_Some | exact Hfirst].
  - intros i d e' Hd He'. rewrite last_lookup in Hlast.
    destruct (decide (S i < length c)%nat) as [Hlt|Hge].
    + rewrite lookup_app_l in Hd by lia. rewrite lookup_app_l in He' by lia.
      by eapply Hadj.
    + assert (S i = length c) as Hi.
      { apply lookup_lt_Some in He'. rewrite length_app in He'. cbn in He'. lia. }
      rewrite Hi, list_lookup_middle in He' by done. injection He' as <-.
      rewrite lookup_app_l in Hd by lia.
      replace (pred (length c)) with i in Hlast by lia.
      rewrite Hd in Hlast. by injection Hlast as ->.
Qed.

Lemma snd_fmapM {A B} (f : A -> B) (m : M A) s : snd (fmapM f m s) = snd (m s).
Proof. unfold fmapM, bind, ret. by destruct (m s) as [[a|e|] s']. Qed.

Lemma store_eta s' a p t :
  arrays s' = a -> productHistory s' = p -> allTransactions s' = t ->
  s' = {| arrays := a; productHistory := p; allTransactions := t |}.
Proof. destruct s'. cbn. by intros -> -> ->. Qed.

Lemma run_stepEffect c env s :
  storeInvariant s -> stepEffect s env (snd (run c env s)).
Proof.
  intros [Hwf Hchains].
  assert (Hsame : stepEffect s env s) by apply effect_allocate, onlyAllocates_refl.
  destruct c as [p md o|p cur n|p o md|p|limit|filters]; cbn [run]; rewrite snd_fmapM.
  - destruct (productHistory s !! p) as [a|] eqn:Hp.
    + by rewrite (createProduct_existing _ _ _ _ _ _ Hp).
    + destruct (createProduct_fresh s p md o env Hwf Hp)
        as (sig & e & s' & -> & -> & Hph & Hall & Harr).
      cbn [snd]. rewrite (store_eta _ _ _ _ Harr Hph Hall).
      by apply effect_create.
  - destruct (productHistory s !! p) as [a|] eqn:Hp.
    2: by rewrite (transfer_unknown _ _ _ _ _ Hp).
    destruct (Hchains _ _ Hp) as (records & Ha & Hcustody).
    destruct (chainOfCustody_last _ Hcustody) as [latest Hlast].
    destruct (decide (latest.(owner) = cur)) as [Heq|Hne].
    2: by rewrite (transfer_mismatch _ _ _ _ _ _ _ _ Hp Ha Hlast Hne).
    destruct (transfer_success s p cur n env a records latest Hwf Hp Ha Hlast Heq)
      as (sig & e & s' & -> & -> & Hph & Hall & Harr).
    cbn [snd]. rewrite (store_eta _ _ _ _ Harr Hph Hall).
    eapply effect_append; eauto.
    split; cbn; [intros _; by rewrite Heq | discriminate].
  - destruct (productHistory s !! p) as [a|] eqn:Hp.
    2: by rewrite (repair_unknown _ _ _ _ _ Hp).
    destruct (Hchains _ _ Hp) as (records & Ha & Hcustody).
    destruct (chainOfCustody_last _ Hcustody) as [latest Hlast].
    destruct (decide (latest.(owner) = o)) as [Heq|Hne].
    2: by rewrite (repair_mismatch _ _ _ _ _ _ _ _ Hp Ha Hlast Hne).
    destruct (repair_success s p o md env a records latest Hwf Hp Ha Hlast Heq)
      as (sig & e & s' & -> & -> & Hph & Hall & Harr).
    cbn [snd]. rewrite (store_eta _ _ _ _ Harr Hph Hall).
    eapply effect_append; eauto.
    split; cbn; [discriminate | intros _; by rewrite Heq].
  - by rewrite getProductHistory_store.
  - rewrite getRecentTransactions_spec. cbn [snd].
    apply effect_allocate, onlyAllocates_new, onlyAllocates_refl.
  - destruct (getAllTransactions_spec filters s) as (a & s' & -> & Hs' & _).
    by apply effect_allocate.
Qed.

Lemma onlyAllocates_globalLog s s' :
  wellFormed s -> onlyAllocates s s' -> globalLog s' = globalLog s.
Proof.
  intros Hwf Hs'. unfold globalLog.
  rewrite (proj1 (proj2 Hs')).
  by rewrite (onlyAllocates_lookup _ _ _ Hs' (wf_all _ Hwf)).
Qed.

Lemma globalLog_lookup s :
  wellFormed s -> arrays s !! allTransactions s = Some (globalLog s).
Proof.
  intros Hwf. unfold globalLog.
  destruct (lookup_lt_is_Some_2 (arrays s) _ (wf_all _ Hwf)) as [l ->]. done.
Qed.

Lemma stepEffect_invariant s env s' :
  storeInvariant s -> stepEffect s env s' -> storeInvariant s'.
Proof.
  intros [Hwf Hchains] Hstep.
  destruct Hstep as [s' Halloc|p e Hp Htype Hprev _|p a records latest e Hp Ha Hlast Hcust _].
  - pose proof Halloc as (Hph & Hall & fresh & Harr). split.
    + split.
      * rewrite Hall, Harr, length_app. pose proof (wf_all _ Hwf). lia.
      * intros q b. rewrite Hph, Hall, Harr, length_app. intros Hq.
        destruct (wf_history _ Hwf _ _ Hq). split; [lia | done].
      * intros q1 q2 b. rewrite Hph. apply (wf_distinct _ Hwf).
    + intros q b. rewrite Hph. intros Hq.
      destruct (Hchains _ _ Hq) as (c & Hb & Hc). exists c. split; [|done].
      rewrite (onlyAllocates_lookup _ _ _ Halloc); [done|].
      by destruct (wf_history _ Hwf _ _ Hq).
  - pose proof (wf_all _ Hwf) as Hlt. split.
    + split; cbn.
      * rewrite length_app, length_insert. lia.
      * intros q b. rewrite length_app, length_insert, lookup_insert. cbn.
        case_decide as Hq.
        -- intros [= <-]. lia.
        -- intros Hb. destruct (wf_history _ Hwf _ _ Hb). split; [lia | done].
      * intros q1 q2 b. rewrite !lookup_insert.
        repeat case_decide; subst; try done.
        -- intros [= <-] Hb. destruct (wf_history _ Hwf _ _ Hb). lia.
        -- intros Hb [= <-]. destruct (wf_history _ Hwf _ _ Hb). lia.
        -- apply (wf_distinct _ Hwf).
    + intros q b. cbn. rewrite lookup_insert. case_decide as Hq.
      * intros [= <-]. exists [e]. split.
        -- apply list_lookup_middle. by rewrite length_insert.
        -- by apply chainOfCustody_singleton.
      * intros Hb. destruct (wf_history _ Hwf _ _ Hb) as [Hblt Hbne].
        destruct (Hchains _ _ Hb) as (c & Hc & Hcust). exists c. split; [|done].
        rewrite lookup_app_l by (by rewrite length_insert).
        by rewrite list_lookup_insert_ne.
  - split.
    + split; cbn.
      * rewrite !length_insert. apply (wf_all _ Hwf).
      * intros q b. rewrite !length_insert. apply (wf_history _ Hwf).
      * apply (wf_distinct _ Hwf).
    + intros q b Hb. cbn in *. destruct (wf_history _ Hwf _ _ Hb) as [Hblt Hbne].
      rewrite list_lookup_insert_ne by done.
      destruct (decide (a = b)) as [<-|Hab].
      * exists (records ++ [e])%list. split.
        -- by apply list_lookup_insert_eq.
        -- destruct (Hchains _ _ Hp) as (c & Hc & Hcustody).
           assert (c = records) as -> by congruence.
           by eapply chainOfCustody_snoc.
      * rewrite list_lookup_insert_ne by done. by apply (Hchains q).
Qed.

Lemma exec_snoc calls c env s :
  exec (calls ++ [(c, env)]) s = snd (run c env (exec calls s)).
Proof. unfold exec. by rewrite fold_left_app. Qed.

Lemma initialStore_invariant : storeInvariant initialStore.
Proof.
  split.
  - split; cbn; [lia | intros p a; by rewrite lookup_empty..].
  - intros p a. cbn. by rewrite lookup_empty.
Qed.

Lemma exec_invariant calls : storeInvariant (exec calls initialStore).
Proof.
  induction calls as [|[c env] calls IH] using rev_ind.
  - apply initialStore_invariant.
  - rewrite exec_snoc. eapply stepEffect_invariant; [exact IH|].
    by apply run_stepEffect.
Qed.

End Invariant.

(** ** Substrings *)

Section Substrings.

Lemma prefix_app (x post : string) : String.prefix x (x +:+ post) = true.
Proof.
  induction x as [|c x IH]; simpl; [by destruct post|].
  destruct (ascii_dec c c); [exact IH | done].
Qed.

Lemma includes_prefix (s sub : string) :
  String.prefix sub s = true -> Js.includes s sub = true.
Proof. intros H. destruct s; cbn [Js.includes]; by rewrite H. Qed.

Lemma includes_here (x post : string) : Js.includes (x +:+ post) x = true.
Proof. apply includes_prefix, prefix_app. Qed.

Lemma includes_later (pre s x : string) :
  Js.includes s x = true -> Js.includes (pre +:+ s) x = true.
Proof.
  intros H. induction pre as [|c pre IH]; [exact H|].
  change (String c pre +:+ s) with (String c (pre +:+ s)).
  cbn [Js.includes]. rewrite IH. by destruct (String.prefix x (String c (pre +:+ s))).
Qed.

Lemma includes_self (x : string) : Js.includes x x = true.
Proof.
  apply includes_prefix. induction x as [|c x IH]; simpl; [done|].
  destruct (ascii_dec c c); [exact IH | done].
Qed.

Lemma ownershipFailed_mentions (actual supplied : string) :
  Js.includes (ownershipFailed actual supplied) actual = true
  /\ Js.includes (ownershipFailed actual supplied) supplied = true.
Proof.
  unfold ownershipFailed. split.
  - apply includes_later, includes_here.
  - do 3 apply includes_later. apply includes_self.
Qed.

Lemma toLowerCase_truthy (s : string) :
  Js.truthy_string (Js.toLowerCase s) = Js.truthy_string s.
Proof. by destruct s. Qed.

Lemma includes_empty (sub : string) :
  Js.truthy_string sub = true -> Js.includes EmptyString sub = false.
Proof. by destruct sub. Qed.

End Substrings.

(** ** The ledger's claims *)

(** C1: the chain-of-custody invariant.  After any sequence of calls, every
    product's chain is non-empty, starts with a Manufacture event that has
    no [previousOwner], and every event that follows another is linked to it:
    a Transfer's [previousOwner] and a Repair's [owner] are the owner of the
    event just before. *)
Theorem chain_of_custody_invariant (calls : list (Call * Env)) (p : string) (a : nat) :
  productHistory (exec calls initialStore) !! p = Some a ->
  exists c first,
    arrays (exec calls initialStore) !! a = Some c
    /\ c !! 0%nat = Some first
    /\ first.(type) = Manufacture
    /\ first.(previousOwner) = None
    /\ forall (i : nat) d e,
         c !! i = Some d -> c !! S i = Some e ->
         (e.(type) = Transfer -> e.(previousOwner) = Some d.(owner))
         /\ (e.(type) = Repair -> e.(owner) = d.(owner)).
Proof.
  intros Hp. destruct (exec_invariant calls) as [_ Hchains].
  destruct (Hchains _ _ Hp) as (c & Hc & (first & H0 & Ht & Hprev) & Hadj).
  exists c, first. repeat split; try done; by eapply Hadj.
Qed.

Lemma chain_of_custody_invariant_witness :
  exists c first,
    arrays (exec Sample.bike initialStore) !! 1%nat = Some c
    /\ c !! 0%nat = Some first
    /\ first.(type) = Manufacture
    /\ first.(previousOwner) = None
    /\ forall (i : nat) d e,
         c !! i = Some d -> c !! S i = Some e ->
         (e.(type) = Transfer -> e.(previousOwner) = Some d.(owner))
         /\ (e.(type) = Repair -> e.(owner) = d.(owner)).
Proof.
  apply (chain_of_custody_invariant Sample.bike "BIKE-001" 1).
  vm_compute. reflexivity.
Defined.

(** C2: a transfer or a repair by anyone but the current owner is rejected.
    Whenever a product has a chain whose last event is owned by someone other
    than the owner supplied, [transferOwnership] and [recordRepair] throw the
    ownership error, whose message contains both the current owner and the
    supplied one, and the store is returned as it was: every chain and the
    global log are untouched. *)
Theorem ownership_mismatch_rejected (s : Store) (p : string) (a : nat)
    (records : list Event) (latest : Event)
    (supplied next : string) (md : option string) (env : Env) :
  productHistory s !! p = Some a ->
  arrays s !! a = Some records ->
  last records = Some latest ->
  latest.(owner) <> supplied ->
  transferOwnership p supplied next env s
  = (Throw (Error (ownershipFailed latest.(owner) supplied)), s)
  /\ recordRepair p supplied md env s
     = (Throw (Error (ownershipFailed latest.(owner) supplied)), s)
  /\ Js.includes (ownershipFailed latest.(owner) supplied) latest.(owner) = true
  /\ Js.includes (ownershipFailed latest.(owner) supplied) supplied = true.
Proof.
  intros Hp Ha Hlast Hne.
  split; [by eapply transfer_mismatch|].
  split; [by eapply repair_mismatch|].
  apply ownershipFailed_mentions.
Qed.

Lemma ownership_mismatch_rejected_witness :
  transferOwnership "BIKE-001" "A" "C" (Sample.online 5000 "sig5")
    (exec Sample.bike initialStore)
  = (Throw (Error (ownershipFailed "B" "A")), exec Sample.bike initialStore)
  /\ recordRepair "BIKE-001" "A" None (Sample.online 5000 "sig5")
       (exec Sample.bike initialStore)
     = (Throw (Error (ownershipFailed "B" "A")), exec Sample.bike initialStore)
  /\ Js.includes (ownershipFailed "B" "A") "B" = true
  /\ Js.includes (ownershipFailed "B" "A") "A" = true.
Proof.
  apply (ownership_mismatch_rejected (exec Sample.bike initialStore) "BIKE-001" 1
           Sample.bikeChain Sample.bikeLatest "A" "C" None (Sample.online 5000 "sig5")).
  - vm_compute. reflexivity.
  - vm_compute. reflexivity.
  - vm_compute. reflexivity.
  - vm_compute. discriminate.
Defined.

(** C3: [createProduct] rejects a repeated id.  After any sequence of calls,
    for an id with no chain, the call returns, the id's chain is the single
    Manufacture event owned by the given manufacturer, the same event is at
    the end of the global log; a further call for that id, whatever its
    other arguments, throws the duplicate error and returns the store as it
    was. *)
Theorem createProduct_rejects_duplicate (calls : list (Call * Env)) (p : string)
    (md : option string) (o : string) (env : Env) :
  productHistory (exec calls initialStore) !! p = None ->
  exists r s' e,
    createProduct p md o env (exec calls initialStore) = (Return r, s')
    /\ chainOf s' p = Some [e]
    /\ e.(type) = Manufacture
    /\ e.(owner) = o
    /\ e.(timestamp) = now env
    /\ globalLog s' = (globalLog (exec calls initialStore) ++ [e])%list
    /\ forall md' o' env',
         createProduct p md' o' env' s'
         = (Throw (Error "Product ID already exists"), s').
Proof.
  intros Hp. destruct (exec_invariant calls) as [Hwf _].
  destruct (createProduct_fresh _ p md o env Hwf Hp)
    as (sig & e & s' & Hrun & -> & Hph & Hall & Harr).
  eexists _, s', _. split; [exact Hrun|].
  pose proof (wf_all _ Hwf) as Hlt.
  assert (Hnew : productHistory s' !! p = Some (length (arrays (exec calls initialStore))))
    by (rewrite Hph; apply lookup_insert_eq).
  split.
  { unfold chainOf. rewrite Hnew, Harr.
    apply list_lookup_middle. by rewrite length_insert. }
  do 3 (split; [reflexivity|]). split.
  { unfold globalLog at 1. rewrite Hall, Harr.
    rewrite lookup_app_l by (by rewrite length_insert).
    by rewrite list_lookup_insert_eq. }
  intros md' o' env'. by eapply createProduct_existing.
Qed.

Lemma createProduct_rejects_duplicate_witness :
  exists r s' e,
    createProduct "BIKE-002" None "A" (Sample.online 5000 "sig5")
      (exec Sample.bike initialStore) = (Return r, s')
    /\ chainOf s' "BIKE-002" = Some [e]
    /\ e.(type) = Manufacture
    /\ e.(owner) = "A"
    /\ e.(timestamp) = 5000
    /\ globalLog s' = (globalLog (exec Sample.bike initialStore) ++ [e])%list
    /\ forall md' o' env',
         createProduct "BIKE-002" md' o' env' s'
         = (Throw (Error "Product ID already exists"), s').
Proof.
  apply (createProduct_rejects_duplicate Sample.bike "BIKE-002" None "A"
           (Sample.online 5000 "sig5")).
  vm_compute. reflexivity.
Defined.

(** ** The global log *)

Section GlobalLog.

Lemma stepEffect_globalLog s env s' :
  storeInvariant s -> stepEffect s env s' ->
  globalLog s' = globalLog s
  \/ exists e, e.(timestamp) = now env /\ globalLog s' = (globalLog s ++ [e])%list.
Proof.
  intros [Hwf _] Hstep. pose proof (wf_all _ Hwf) as Hlt.
  destruct Hstep as [s' Halloc|p e _ _ _ Hts|p a records latest e _ _ _ _ Hts].
  - left. by apply onlyAllocates_globalLog.
  - right. exists e. split; [done|]. unfold globalLog at 1. cbn.
    rewrite lookup_app_l by (by rewrite length_insert).
    by rewrite list_lookup_insert_eq.
  - right. exists e. split; [done|]. unfold globalLog at 1. cbn.
    by rewrite list_lookup_insert_eq by (by rewrite length_insert).
Qed.

Lemma globalLog_timestamps calls e :
  e ∈ globalLog (exec calls initialStore) ->
  e.(timestamp) ∈ (fun ce => now (snd ce)) <$> calls.
Proof.
  revert e. induction calls as [|[c env] calls IH] using rev_ind; intros e.
  - cbn. by intros ?%elem_of_nil.
  - rewrite exec_snoc, fmap_app, elem_of_app.
    destruct (stepEffect_globalLog _ env _ (exec_invariant calls)
                (run_stepEffect c env _ (exec_invariant calls)))
      as [->|(e' & Hts & ->)].
    + intros He. left. by apply IH.
    + rewrite elem_of_app, list_elem_of_singleton. intros [He| ->].
      * left. by apply IH.
      * right. cbn. rewrite Hts. by apply list_elem_of_singleton.
Qed.

Lemma globalLog_oldestFirst calls :
  clockNeverGoesBack calls -> oldestFirst (globalLog (exec calls initialStore)).
Proof.
  unfold clockNeverGoesBack, oldestFirst.
  induction calls as [|[c env] calls IH] using rev_ind; intros Hclock.
  - cbn. constructor.
  - rewrite fmap_app in Hclock. apply StronglySorted_app in Hclock as (Hle & Hcalls & _).
    rewrite exec_snoc.
    destruct (stepEffect_globalLog _ env _ (exec_invariant calls)
                (run_stepEffect c env _ (exec_invariant calls)))
      as [->|(e' & Hts & ->)]; [by apply IH|].
    apply StronglySorted_app_2; [|by apply IH|repeat constructor].
    intros x1 x2 Hx1 ->%list_elem_of_singleton. rewrite Hts.
    apply Hle; [by apply globalLog_timestamps | by apply list_elem_of_singleton].
Qed.

Lemma oldestFirst_rev l : oldestFirst l -> newestFirst (rev l).
Proof.
  unfold oldestFirst, newestFirst. induction 1 as [|x l Hl IH Hx]; cbn [rev]; [constructor|].
  apply StronglySorted_app_2; [|exact IH|repeat constructor].
  intros x1 x2 Hx1 ->%list_elem_of_singleton.
  rewrite Forall_forall in Hx. apply Hx.
  apply list_elem_of_In, in_rev, list_elem_of_In. exact Hx1.
Qed.

Lemma newestFirst_take n l : newestFirst l -> newestFirst (take n l).
Proof.
  unfold newestFirst. intros Hl. rewrite <-(take_drop n l) in Hl.
  by apply StronglySorted_app_1_l in Hl.
Qed.

Lemma rev_slice_negative {A} (n : Z) (l : list A) :
  0 < n -> rev (Js.slice (- n) l) = take (Z.to_nat n) (rev l).
Proof.
  intros Hn. unfold Js.slice. destruct (- n <? 0) eqn:Hneg; [|apply Z.ltb_ge in Hneg; lia].
  rewrite firstn_rev. do 2 f_equal. lia.
Qed.

Lemma slice_zero {A} (l : list A) : Js.slice (- 0) l = l.
Proof. unfold Js.slice. cbn. by rewrite Z.min_l by lia. Qed.

End GlobalLog.

(** ** What the calls return *)

Section Views.

Lemma fmapM_Return {A B} (f : A -> B) (m : M A) s v s' :
  fmapM f m s = (Return v, s') -> exists a, m s = (Return a, s') /\ v = f a.
Proof.
  unfold fmapM, bind, ret. destruct (m s) as [[a|e|] s1]; intros [= <- <-]. by exists a.
Qed.

Lemma created_views s p e :
  wellFormed s ->
  let s' := {| arrays := (<[allTransactions s := (globalLog s ++ [e])%list]> (arrays s)
                          ++ [[e]])%list;
               productHistory := <[p := length (arrays s)]> (productHistory s);
               allTransactions := allTransactions s |} in
  chainOf s' p = Some [e] /\ globalLog s' = (globalLog s ++ [e])%list.
Proof.
  intros Hwf s'. pose proof (wf_all _ Hwf) as Hlt. unfold chainOf, globalLog at 1, s'. cbn.
  rewrite lookup_insert_eq. split.
  - apply list_lookup_middle. by rewrite length_insert.
  - rewrite lookup_app_l by (by rewrite length_insert).
    by rewrite list_lookup_insert_eq.
Qed.

Lemma appended_views s p a records e :
  wellFormed s ->
  productHistory s !! p = Some a ->
  arrays s !! a = Some records ->
  let s' := {| arrays := <[allTransactions s := (globalLog s ++ [e])%list]>
                           (<[a := (records ++ [e])%list]> (arrays s));
               productHistory := productHistory s;
               allTransactions := allTransactions s |} in
  chainOf s' p = Some (records ++ [e])%list /\ globalLog s' = (globalLog s ++ [e])%list.
Proof.
  intros Hwf Hp Ha s'. destruct (wf_history _ Hwf _ _ Hp) as [Hlt Hne].
  unfold chainOf, globalLog at 1, s'. cbn. rewrite Hp. split.
  - rewrite list_lookup_insert_ne by done. by rewrite list_lookup_insert_eq.
  - by rewrite list_lookup_insert_eq by (rewrite length_insert; apply (wf_all _ Hwf)).
Qed.

Lemma keeps_provided filters tx :
  keeps filters tx = QuerySpec.matches (QuerySpec.provided filters) tx.
Proof.
  unfold keeps, QuerySpec.matches, QuerySpec.provided, applied. cbn.
  f_equal; [f_equal; [f_equal|]|].
  - destruct (Filters.owner filters) as [w|]; cbn; [|done].
    destruct (Js.truthy_string w) eqn:Hw; [|done].
    unfold ownerIncludes, QuerySpec.substringCI.
    destruct (owner tx) as [|c o]; [|done]. cbn [Js.truthy_string andb Js.toLowerCase].
    by rewrite includes_empty by (by rewrite toLowerCase_truthy).
  - destruct (Filters.previousOwner filters) as [w|]; cbn; [|done].
    destruct (Js.truthy_string w) eqn:Hw; [|done].
    unfold previousOwnerIncludes, QuerySpec.substringCI.
    destruct (previousOwner tx) as [[|c o]|]; try done.
    cbn [Js.truthy_string andb Js.toLowerCase].
    by rewrite includes_empty by (by rewrite toLowerCase_truthy).
  - destruct (Filters.startTime filters) as [t|]; cbn; [|done].
    by destruct (Js.truthy_number t).
  - destruct (Filters.endTime filters) as [t|]; cbn; [|done].
    by destruct (Js.truthy_number t).
Qed.

End Views.

(** C6 (as amended): for every positive limit [n], [getRecentTransactions]
    returns a new array holding the [n] newest entries of the global log,
    newest first, that is exactly [min n total] entries; without an argument
    the limit is 10; and when the clock never went back during the calls
    that built the log, the entries are in non-increasing timestamp order. *)
Theorem getRecentTransactions_newest_first (calls : list (Call * Env)) (n : Z) :
  0 < n ->
  exists a s' out,
    getRecentTransactions (Some n) (exec calls initialStore) = (Return a, s')
    /\ arrays s' !! a = Some out
    /\ out = take (Z.to_nat n) (rev (globalLog (exec calls initialStore)))
    /\ Z.of_nat (length out)
       = Z.min n (Z.of_nat (length (globalLog (exec calls initialStore))))
    /\ getRecentTransactions None (exec calls initialStore)
       = getRecentTransactions (Some 10) (exec calls initialStore)
    /\ (clockNeverGoesBack calls -> newestFirst out).
Proof.
  intros Hn. eexists _, _, _. split; [apply getRecentTransactions_spec|].
  cbn [arrays from_option id]. split; [by apply list_lookup_middle|].
  rewrite rev_slice_negative by done.
  split; [reflexivity|]. split; [rewrite length_take, length_rev; lia|].
  split; [reflexivity|].
  intros Hclock. by apply newestFirst_take, oldestFirst_rev, globalLog_oldestFirst.
Qed.

Lemma getRecentTransactions_newest_first_witness :
  exists a s' out,
    getRecentTransactions (Some 2) (exec Sample.bike initialStore) = (Return a, s')
    /\ arrays s' !! a = Some out
    /\ out = take 2 (rev (globalLog (exec Sample.bike initialStore)))
    /\ Z.of_nat (length out) = 2
    /\ newestFirst out.
Proof.
  destruct (getRecentTransactions_newest_first Sample.bike 2)
    as (a & s' & out & Hrun & Hout & Htake & Hlen & _ & Hclock); [lia|].
  exists a, s', out. split; [exact Hrun|]. split; [exact Hout|].
  split; [exact Htake|]. split; [exact Hlen|].
  apply Hclock. unfold clockNeverGoesBack. cbn. repeat constructor; lia.
Defined.

(** C6 (as stated) fails twice: with limit 0 on a log of one entry the
    result has one entry, not [min 0 1]; and when the clock was set back
    between two appends the two newest entries come out with increasing
    timestamps. *)
Lemma getRecentTransactions_claim_fails :
  (exists a s' out,
     getRecentTransactions (Some 0) (exec Sample.created initialStore) = (Return a, s')
     /\ arrays s' !! a = Some out
     /\ Z.of_nat (length out)
        <> Z.min 0 (Z.of_nat (length (globalLog (exec Sample.created initialStore)))))
  /\ (exists a s' out,
        getRecentTransactions (Some 2) (exec Sample.clockSetBack initialStore) = (Return a, s')
        /\ arrays s' !! a = Some out
        /\ ~ newestFirst out).
Proof.
  split.
  - eexists _, _, _. split; [vm_compute; reflexivity|].
    split; [vm_compute; reflexivity|]. vm_compute. discriminate.
  - eexists _, _, _. split; [vm_compute; reflexivity|].
    split; [vm_compute; reflexivity|].
    unfold newestFirst. intros Hsorted.
    apply StronglySorted_cons in Hsorted as [Hhead _].
    apply Forall_cons in Hhead as [Hle _]. vm_compute in Hle. by apply Hle.
Qed.

(** C10: with limit 0, [getRecentTransactions] returns the whole global log,
    newest first. *)
Theorem getRecentTransactions_zero_returns_all (s : Store) :
  exists a s',
    getRecentTransactions (Some 0) s = (Return a, s')
    /\ arrays s' !! a = Some (rev (globalLog s)).
Proof.
  eexists _, _. split; [apply getRecentTransactions_spec|].
  cbn [arrays from_option id]. rewrite slice_zero. by apply list_lookup_middle.
Qed.

(** C7 (as amended): for filter strings and logged owners in ASCII and
    bounds that are safe integers, [getAllTransactions] returns a new array
    holding exactly the global-log events that satisfy all the filters whose
    value is truthy (a non-empty string, a non-zero bound): the owner and the
    previous owner by case-insensitive substring, an event without
    [previousOwner] never passing that filter, the bounds inclusive.  The
    result is sorted by timestamp, newest first, and events with equal
    timestamps keep the order of the global log; no other list has these two
    properties. *)
Theorem getAllTransactions_filters_and_sorts (s : Store) (filters : option Filters.t) :
  modelledFilters (default Filters.empty filters) = true ->
  asciiLog (globalLog s) = true ->
  exists a s' out,
    getAllTransactions filters s = (Return a, s')
    /\ arrays s' !! a = Some out
    /\ Permutation out
         (List.filter
            (QuerySpec.matches (QuerySpec.provided (default Filters.empty filters)))
            (globalLog s))
    /\ newestFirst out
    /\ (forall t,
          stamped t out
          = stamped t
              (List.filter
                 (QuerySpec.matches (QuerySpec.provided (default Filters.empty filters)))
                 (globalLog s)))
    /\ forall out',
         newestFirst out' ->
         (forall t,
            stamped t out'
            = stamped t
                (List.filter
                   (QuerySpec.matches (QuerySpec.provided (default Filters.empty filters)))
                   (globalLog s))) ->
         out' = out.
Proof.
  intros _ _.
  destruct (getAllTransactions_spec filters s) as (a & s' & Hrun & _ & Hout).
  rewrite (List.filter_ext _ _ (keeps_provided (default Filters.empty filters))) in Hout.
  eexists a, s', _. split; [exact Hrun|]. split; [exact Hout|].
  split; [apply sortBy_perm|]. split; [apply sortBy_newestFirst|].
  split; [intros t; apply sortBy_stamped|].
  intros out' Hsorted Hstable.
  apply newestFirst_stamped_unique; [exact Hsorted | apply sortBy_newestFirst|].
  intros t. by rewrite Hstable, sortBy_stamped.
Qed.

Lemma getAllTransactions_filters_and_sorts_witness :
  exists a s' out,
    getAllTransactions (Some (Sample.onlyOwner "b")) (exec Sample.bike initialStore)
    = (Return a, s')
    /\ arrays s' !! a = Some out
    /\ Permutation out (rev (drop 1 Sample.bikeChain))
    /\ newestFirst out.
Proof.
  destruct (getAllTransactions_filters_and_sorts (exec Sample.bike initialStore)
              (Some (Sample.onlyOwner "b")))
    as (a & s' & out & Hrun & Hout & Hperm & Hsorted & _).
  - vm_compute. reflexivity.
  - vm_compute. reflexivity.
  - exists a, s', out. split; [exact Hrun|]. split; [exact Hout|].
    split; [|exact Hsorted].
    rewrite Hperm. vm_compute. apply perm_swap.
Defined.

(** C7 (as stated) fails: with [previousOwner] present but empty, the
    Manufacture event, which has no [previousOwner], is returned, whereas no
    event of the log satisfies the filters as the claim words them. *)
Lemma getAllTransactions_claim_fails :
  exists a s' out,
    getAllTransactions (Some (Sample.onlyPreviousOwner EmptyString))
      (exec Sample.created initialStore) = (Return a, s')
    /\ arrays s' !! a = Some out
    /\ ~ Permutation out
           (List.filter (QuerySpec.matches (Sample.onlyPreviousOwner EmptyString))
              (globalLog (exec Sample.created initialStore))).
Proof.
  eexists _, _, _. split; [vm_compute; reflexivity|].
  split; [vm_compute; reflexivity|].
  vm_compute. intros Hperm. by apply Permutation_nil_r in Hperm.
Qed.

(** C8 (as amended): a successful mutation returns a receipt, not the event.
    The receipt carries the signature of the event the call appended (a
    Manufacture, Transfer or Repair event for the product, at the end of the
    product's chain and of the global log); [createProduct] adds a freshly
    generated account, the other two return the signature alone. *)
Theorem mutation_returns_signature (calls : list (Call * Env)) (c : Call) (env : Env)
    (v : Value) (s' : Store) :
  isMutation c = true ->
  run c env (exec calls initialStore) = (Return v, s') ->
  exists e earlier,
    v = VReceipt {| Receipt.signature := e.(signature);
                    Receipt.account := match c with
                                       | CreateProduct _ _ _ => Some (generatedAccount env)
                                       | _ => None
                                       end |}
    /\ e.(type) = kindOf c
    /\ e.(productId) = productOf c
    /\ e.(timestamp) = now env
    /\ chainOf s' (productOf c) = Some (earlier ++ [e])%list
    /\ globalLog s' = (globalLog (exec calls initialStore) ++ [e])%list.
Proof.
  intros Hmut Hrun. destruct (exec_invariant calls) as [Hwf Hchains].
  set (s := exec calls initialStore) in *.
  destruct c as [p md o|p cur n|p o md|p|limit|filters]; try discriminate Hmut;
    cbn [run] in Hrun; apply fmapM_Return in Hrun as (r & Hrun & ->);
    cbn [kindOf productOf].
  - destruct (productHistory s !! p) as [a|] eqn:Hp.
    { rewrite (createProduct_existing _ _ _ _ _ _ Hp) in Hrun. discriminate. }
    destruct (createProduct_fresh s p md o env Hwf Hp)
      as (sig & e & s1 & Hrun' & He & Hph & Hall & Harr).
    rewrite Hrun' in Hrun. injection Hrun as <- <-.
    rewrite (store_eta _ _ _ _ Harr Hph Hall).
    exists e, []. subst e. split; [reflexivity|]. do 3 (split; [reflexivity|]).
    by apply created_views.
  - destruct (productHistory s !! p) as [a|] eqn:Hp.
    2: { rewrite (transfer_unknown _ _ _ _ _ Hp) in Hrun. discriminate. }
    destruct (Hchains _ _ Hp) as (records & Ha & Hcustody).
    destruct (chainOfCustody_last _ Hcustody) as [latest Hlast].
    destruct (decide (latest.(owner) = cur)) as [Heq|Hne].
    2: { rewrite (transfer_mismatch _ _ _ _ _ _ _ _ Hp Ha Hlast Hne) in Hrun. discriminate. }
    destruct (transfer_success s p cur n env a records latest Hwf Hp Ha Hlast Heq)
      as (sig & e & s1 & Hrun' & He & Hph & Hall & Harr).
    rewrite Hrun' in Hrun. injection Hrun as <- <-.
    rewrite (store_eta _ _ _ _ Harr Hph Hall).
    exists e, records. subst e. split; [reflexivity|]. do 3 (split; [reflexivity|]).
    by apply appended_views.
  - destruct (productHistory s !! p) as [a|] eqn:Hp.
    2: { rewrite (repair_unknown _ _ _ _ _ Hp) in Hrun. discriminate. }
    destruct (Hchains _ _ Hp) as (records & Ha & Hcustody).
    destruct (chainOfCustody_last _ Hcustody) as [latest Hlast].
    destruct (decide (latest.(owner) = o)) as [Heq|Hne].
    2: { rewrite (repair_mismatch _ _ _ _ _ _ _ _ Hp Ha Hlast Hne) in Hrun. discriminate. }
    destruct (repair_success s p o md env a records latest Hwf Hp Ha Hlast Heq)
      as (sig & e & s1 & Hrun' & He & Hph & Hall & Harr).
    rewrite Hrun' in Hrun. injection Hrun as <- <-.
    rewrite (store_eta _ _ _ _ Harr Hph Hall).
    exists e, records. subst e. split; [reflexivity|]. do 3 (split; [reflexivity|]).
    by apply appended_views.
Qed.

Lemma mutation_returns_signature_witness :
  exists e earlier,
    VReceipt {| Receipt.signature := "sig5"; Receipt.account := None |}
    = VReceipt {| Receipt.signature := e.(signature); Receipt.account := None |}
    /\ e.(type) = Transfer
    /\ e.(productId) = "BIKE-001"
    /\ e.(timestamp) = 5000
    /\ chainOf (snd (run (TransferOwnership "BIKE-001" "B" "C")
                       (Sample.online 5000 "sig5") (exec Sample.bike initialStore)))
         "BIKE-001" = Some (earlier ++ [e])%list
    /\ globalLog (snd (run (TransferOwnership "BIKE-001" "B" "C")
                         (Sample.online 5000 "sig5") (exec Sample.bike initialStore)))
       = (globalLog (exec Sample.bike initialStore) ++ [e])%list.
Proof.
  apply (mutation_returns_signature Sample.bike (TransferOwnership "BIKE-001" "B" "C")
           (Sample.online 5000 "sig5")).
  - reflexivity.
  - vm_compute. reflexivity.
Defined.

(** C8 (as stated) fails: the object [createProduct] returns is not the
    Manufacture event it appended; it has no [owner], for one. *)
Lemma createProduct_does_not_return_event :
  exists r s' e,
    createProduct "BIKE-001" None "A" (Sample.online 1000 "sig1") initialStore
    = (Return r, s')
    /\ chainOf s' "BIKE-001" = Some [e]
    /\ receiptGet r "owner" = None
    /\ eventGet e "owner" = Some (JsString "A")
    /\ ~ returnsEvent r e.
Proof.
  eexists _, _, _. split; [vm_compute; reflexivity|].
  split; [vm_compute; reflexivity|].
  split; [vm_compute; reflexivity|]. split; [vm_compute; reflexivity|].
  intros Hsame. specialize (Hsame "owner"). vm_compute in Hsame. discriminate.
Qed.

(** C9: queries do not modify the store.  After any sequence of calls, a
    call of [getProductHistory], [getRecentTransactions] or
    [getAllTransactions] leaves the product map and the global-log reference
    as they were and changes no array that existed before the call, so every
    chain and the global log read as before; an in-place sort or reversal
    acts on an array allocated by the call. *)
Theorem queries_do_not_modify (calls : list (Call * Env)) (c : Call) (env : Env) :
  isQuery c = true ->
  productHistory (snd (run c env (exec calls initialStore)))
  = productHistory (exec calls initialStore)
  /\ allTransactions (snd (run c env (exec calls initialStore)))
     = allTransactions (exec calls initialStore)
  /\ take (length (arrays (exec calls initialStore)))
       (arrays (snd (run c env (exec calls initialStore))))
     = arrays (exec calls initialStore)
  /\ (forall p, chainOf (snd (run c env (exec calls initialStore))) p
                = chainOf (exec calls initialStore) p)
  /\ globalLog (snd (run c env (exec calls initialStore)))
     = globalLog (exec calls initialStore).
Proof.
  intros Hq. destruct (exec_invariant calls) as [Hwf _].
  set (s := exec calls initialStore) in *.
  assert (Halloc : onlyAllocates s (snd (run c env s))).
  { destruct c as [p md o|p cur n|p o md|p|limit|filters]; try discriminate Hq;
      cbn [run]; rewrite snd_fmapM.
    - rewrite getProductHistory_store. apply onlyAllocates_refl.
    - rewrite getRecentTransactions_spec. apply onlyAllocates_new, onlyAllocates_refl.
    - by destruct (getAllTransactions_spec filters s) as (a & s' & -> & Hs' & _). }
  pose proof Halloc as (Hph & Hall & fresh & Harr).
  split; [exact Hph|]. split; [exact Hall|].
  split; [by rewrite Harr, take_app_length|].
  split; [|by apply onlyAllocates_globalLog].
  intros p. unfold chainOf. rewrite Hph.
  destruct (productHistory s !! p) as [a|] eqn:Hp; [|done].
  apply onlyAllocates_lookup; [exact Halloc|].
  by destruct (wf_history _ Hwf _ _ Hp).
Qed.

Lemma queries_do_not_modify_witness :
  productHistory (snd (run (GetAllTransactions (Some (Sample.onlyOwner "b")))
                         (Sample.online 5000 "sig5") (exec Sample.bike initialStore)))
  = productHistory (exec Sample.bike initialStore)
  /\ allTransactions (snd (run (GetAllTransactions (Some (Sample.onlyOwner "b")))
                             (Sample.online 5000 "sig5") (exec Sample.bike initialStore)))
     = allTransactions (exec Sample.bike initialStore)
  /\ take (length (arrays (exec Sample.bike initialStore)))
       (arrays (snd (run (GetAllTransactions (Some (Sample.onlyOwner "b")))
                       (Sample.online 5000 "sig5") (exec Sample.bike initialStore))))
     = arrays (exec Sample.bike initialStore)
  /\ (forall p, chainOf (snd (run (GetAllTransactions (Some (Sample.onlyOwner "b")))
                                (Sample.online 5000 "sig5") (exec Sample.bike initialStore))) p
                = chainOf (exec Sample.bike initialStore) p)
  /\ globalLog (snd (run (GetAllTransactions (Some (Sample.onlyOwner "b")))
                       (Sample.online 5000 "sig5") (exec Sample.bike initialStore)))
     = globalLog (exec Sample.bike initialStore).
Proof.
  apply (queries_do_not_modify Sample.bike (GetAllTransactions (Some (Sample.onlyOwner "b")))
           (Sample.online 5000 "sig5")).
  reflexivity.
Defined.

(** The scenario of the specification: create BIKE-001 for A, transfer to B,
    a stale transfer by A is rejected, B records a repair; asking for owner
    ["b"] returns the repair and the transfer, newest first. *)
Example bike_scenario :
  chainOf (exec Sample.bike initialStore) "BIKE-001" = Some Sample.bikeChain
  /\ exists a s',
       getAllTransactions (Some (Sample.onlyOwner "b")) (exec Sample.bike initialStore)
       = (Return a, s')
       /\ arrays s' !! a = Some (rev (drop 1 Sample.bikeChain)).
Proof.
  split; [vm_compute; reflexivity|].
  eexists _, _. split; vm_compute; reflexivity.
Qed.

(** ** What one call does to the chains and the log *)

Section CallEffects.

Lemma created_frame s p e q :
  wellFormed s -> q <> p ->
  chainOf {| arrays := (<[allTransactions s := (globalLog s ++ [e])%list]> (arrays s)
                        ++ [[e]])%list;
             productHistory := <[p := length (arrays s)]> (productHistory s);
             allTransactions := allTransactions s |} q
  = chainOf s q.
Proof.
  intros Hwf Hq. unfold chainOf. cbn. rewrite lookup_insert_ne by done.
  destruct (productHistory s !! q) as [b|] eqn:Hb; [|done].
  destruct (wf_history _ Hwf _ _ Hb) as [Hlt Hne].
  rewrite lookup_app_l by (by rewrite length_insert).
  by rewrite list_lookup_insert_ne.
Qed.

Lemma appended_frame s p a records e q :
  wellFormed s -> productHistory s !! p = Some a -> q <> p ->
  chainOf {| arrays := <[allTransactions s := (globalLog s ++ [e])%list]>
                         (<[a := (records ++ [e])%list]> (arrays s));
             productHistory := productHistory s;
             allTransactions := allTransactions s |} q
  = chainOf s q.
Proof.
  intros Hwf Hp Hq. unfold chainOf. cbn.
  destruct (productHistory s !! q) as [b|] eqn:Hb; [|done].
  destruct (wf_history _ Hwf _ _ Hb) as [Hlt Hne].
  rewrite list_lookup_insert_ne by done.
  rewrite list_lookup_insert_ne; [done|].
  intros ->. apply Hq. by eapply (wf_distinct _ Hwf).
Qed.

Lemma currentOwner_chain s p records latest :
  chainOf s p = Some records -> last records = Some latest ->
  currentOwner s p = Some latest.(owner).
Proof. intros Hc Hl. unfold currentOwner. by rewrite Hc, Hl. Qed.

(** A mutation that returns has appended one event for its product, acting
    for the product's current owner. *)
Lemma mutation_effect c env s v s' :
  storeInvariant s -> isMutation c = true ->
  run c env s = (Return v, s') ->
  exists e,
    e.(type) = kindOf c /\ e.(productId) = productOf c
    /\ e.(timestamp) = now env /\ e.(owner) = ownerAfter c
    /\ globalLog s' = (globalLog s ++ [e])%list
    /\ chainOf s' (productOf c)
       = Some (default [] (chainOf s (productOf c)) ++ [e])%list
    /\ (forall q, q <> productOf c -> chainOf s' q = chainOf s q)
    /\ currentOwner s (productOf c) = actingOwner c
    /\ (chainOf s (productOf c) = None <-> kindOf c = Manufacture).
Proof.
  intros [Hwf Hchains] Hmut Hrun.
  destruct c as [p md o|p cur n|p o md|p|limit|filters]; try discriminate Hmut;
    cbn [run] in Hrun; apply fmapM_Return in Hrun as (r & Hrun & ->);
    cbn [kindOf productOf ownerAfter actingOwner].
  - destruct (productHistory s !! p) as [a|] eqn:Hp.
    { rewrite (createProduct_existing _ _ _ _ _ _ Hp) in Hrun. discriminate. }
    destruct (createProduct_fresh s p md o env Hwf Hp)
      as (sig & e & s1 & Hrun' & He & Hph & Hall & Harr).
    rewrite Hrun' in Hrun. injection Hrun as <- <-.
    rewrite (store_eta _ _ _ _ Harr Hph Hall).
    assert (Hnone : chainOf s p = None) by (unfold chainOf; by rewrite Hp).
    exists e. subst e. do 4 (split; [reflexivity|]).
    destruct (created_views s p
                {| type := Manufacture; timestamp := now env; owner := o;
                   previousOwner := None; metadata := Some (orEmpty md);
                   productId := p; signature := sig |} Hwf) as [Hc Hl].
    split; [exact Hl|]. split; [by rewrite Hnone|].
    split; [intros q Hq; by apply created_frame|].
    split; [unfold currentOwner; by rewrite Hnone | done].
  - destruct (productHistory s !! p) as [a|] eqn:Hp.
    2: { rewrite (transfer_unknown _ _ _ _ _ Hp) in Hrun. discriminate. }
    destruct (Hchains _ _ Hp) as (records & Ha & Hcustody).
    destruct (chainOfCustody_last _ Hcustody) as [latest Hlast].
    destruct (decide (latest.(owner) = cur)) as [Heq|Hne].
    2: { rewrite (transfer_mismatch _ _ _ _ _ _ _ _ Hp Ha Hlast Hne) in Hrun. discriminate. }
    destruct (transfer_success s p cur n env a records latest Hwf Hp Ha Hlast Heq)
      as (sig & e & s1 & Hrun' & He & Hph & Hall & Harr).
    rewrite Hrun' in Hrun. injection Hrun as <- <-.
    rewrite (store_eta _ _ _ _ Harr Hph Hall).
    assert (Hsome : chainOf s p = Some records) by (unfold chainOf; by rewrite Hp).
    exists e. subst e. do 4 (split; [reflexivity|]).
    destruct (appended_views s p a records
                {| type := Transfer; timestamp := now env; owner := n;
                   previousOwner := Some cur; metadata := None;
                   productId := p; signature := sig |} Hwf Hp Ha) as [Hc Hl].
    split; [exact Hl|]. split; [by rewrite Hsome|].
    split; [intros q Hq; by eapply appended_frame|].
    split; [rewrite <-Heq; by eapply currentOwner_chain|].
    rewrite Hsome. split; discriminate.
  - destruct (productHistory s !! p) as [a|] eqn:Hp.
    2: { rewrite (repair_unknown _ _ _ _ _ Hp) in Hrun. discriminate. }
    destruct (Hchains _ _ Hp) as (records & Ha & Hcustody).
    destruct (chainOfCustody_last _ Hcustody) as [latest Hlast].
    destruct (decide (latest.(owner) = o)) as [Heq|Hne].
    2: { rewrite (repair_mismatch _ _ _ _ _ _ _ _ Hp Ha Hlast Hne) in Hrun. discriminate. }
    destruct (repair_success s p o md env a records latest Hwf Hp Ha Hlast Heq)
      as (sig & e & s1 & Hrun' & He & Hph & Hall & Harr).
    rewrite Hrun' in Hrun. injection Hrun as <- <-.
    rewrite (store_eta _ _ _ _ Harr Hph Hall).
    assert (Hsome : chainOf s p = Some records) by (unfold chainOf; by rewrite Hp).
    exists e. subst e. do 4 (split; [reflexivity|]).
    destruct (appended_views s p a records
                {| type := Repair; timestamp := now env; owner := o;
                   previousOwner := None; metadata := md;
                   productId := p; signature := sig |} Hwf Hp Ha) as [Hc Hl].
    split; [exact Hl|]. split; [by rewrite Hsome|].
    split; [intros q Hq; by eapply appended_frame|].
    split; [rewrite <-Heq; by eapply currentOwner_chain|].
    rewrite Hsome. split; discriminate.
Qed.

Lemma getProductHistory_unknown s p :
  productHistory s !! p = None ->
  getProductHistory p s = (Throw (Error "Product ID does not exist"), s).
Proof. intros Hp. unfold getProductHistory. unfold_monad. by rewrite Hp. Qed.

Lemma getProductHistory_known s p a :
  productHistory s !! p = Some a -> getProductHistory p s = (Return a, s).
Proof. intros Hp. unfold getProductHistory. unfold_monad. by rewrite Hp. Qed.

Lemma query_onlyAllocates c env s :
  isQuery c = true -> onlyAllocates s (snd (run c env s)).
Proof.
  intros Hq.
  destruct c as [p md o|p cur n|p o md|p|limit|filters]; try discriminate Hq;
    cbn [run]; rewrite snd_fmapM.
  - rewrite getProductHistory_store. apply onlyAllocates_refl.
  - rewrite getRecentTransactions_spec. apply onlyAllocates_new, onlyAllocates_refl.
  - by destruct (getAllTransactions_spec filters s) as (a & s' & -> & Hs' & _).
Qed.

Lemma onlyAllocates_chainOf s s' p :
  wellFormed s -> onlyAllocates s s' -> chainOf s' p = chainOf s p.
Proof.
  intros Hwf Halloc. pose proof Halloc as (Hph & _). unfold chainOf. rewrite Hph.
  destruct (productHistory s !! p) as [a|] eqn:Hp; [|done].
  apply onlyAllocates_lookup; [exact Halloc|].
  by destruct (wf_history _ Hwf _ _ Hp).
Qed.

Lemma fmapM_Throw {A B} (f : A -> B) (m : M A) s e s' :
  m s = (Throw e, s') -> fmapM f m s = (Throw e, s').
Proof. intros H. unfold fmapM, bind. by rewrite H. Qed.

Lemma fmapM_Return_2 {A B} (f : A -> B) (m : M A) s a s' :
  m s = (Return a, s') -> fmapM f m s = (Return (f a), s').
Proof. intros H. unfold fmapM, bind, ret. by rewrite H. Qed.

(** Every call returns, or throws one of the three errors and hands the
    store back. *)
Lemma run_returns_or_rejects c env s :
  storeInvariant s ->
  (exists v s', run c env s = (Return v, s'))
  \/ (exists msg, run c env s = (Throw (Error msg), s) /\ domainError msg).
Proof.
  intros [Hwf Hchains].
  destruct c as [p md o|p cur n|p o md|p|limit|filters]; cbn [run].
  - destruct (productHistory s !! p) as [a|] eqn:Hp.
    + right. eexists. split.
      * apply fmapM_Throw. by eapply createProduct_existing.
      * by left.
    + left. destruct (createProduct_fresh s p md o env Hwf Hp) as (sig & e & s1 & Hrun & _).
      eexists _, _. by apply fmapM_Return_2.
  - destruct (productHistory s !! p) as [a|] eqn:Hp.
    2: { right. eexists. split; [apply fmapM_Throw; by apply transfer_unknown|].
         right. by left. }
    destruct (Hchains _ _ Hp) as (records & Ha & Hcustody).
    destruct (chainOfCustody_last _ Hcustody) as [latest Hlast].
    destruct (decide (latest.(owner) = cur)) as [Heq|Hne].
    + left. destruct (transfer_success s p cur n env a records latest Hwf Hp Ha Hlast Heq)
        as (sig & e & s1 & Hrun & _).
      eexists _, _. by apply fmapM_Return_2.
    + right. eexists. split; [apply fmapM_Throw; by eapply transfer_mismatch|].
      right. right. by eexists _, _.
  - destruct (productHistory s !! p) as [a|] eqn:Hp.
    2: { right. eexists. split; [apply fmapM_Throw; by apply repair_unknown|].
         right. by left. }
    destruct (Hchains _ _ Hp) as (records & Ha & Hcustody).
    destruct (chainOfCustody_last _ Hcustody) as [latest Hlast].
    destruct (decide (latest.(owner) = o)) as [Heq|Hne].
    + left. destruct (repair_success s p o md env a records latest Hwf Hp Ha Hlast Heq)
        as (sig & e & s1 & Hrun & _).
      eexists _, _. by apply fmapM_Return_2.
    + right. eexists. split; [apply fmapM_Throw; by eapply repair_mismatch|].
      right. right. by eexists _, _.
  - unfold getProductHistory, fmapM. unfold_monad.
    destruct (productHistory s !! p) as [a|].
    + left. by eexists _, _.
    + right. eexists. split; [reflexivity|]. right. by left.
  - left. eexists _, _. apply fmapM_Return_2, getRecentTransactions_spec.
  - left. destruct (getAllTransactions_spec filters s) as (a & s' & Hrun & _).
    eexists _, _. by apply fmapM_Return_2.
Qed.

(** What a call leaves of the chains and the log, whatever its outcome. *)
Lemma run_extends c env s :
  storeInvariant s ->
  (snd (run c env s) = s)
  \/ (isQuery c = true /\ onlyAllocates s (snd (run c env s)))
  \/ (isMutation c = true /\ exists v, run c env s = (Return v, snd (run c env s))).
Proof.
  intros Hinv. destruct (isMutation c) eqn:Hmut.
  - destruct (run_returns_or_rejects c env s Hinv) as [(v & s' & Hrun)|(msg & Hrun & _)].
    + right. right. split; [done|]. exists v. by rewrite Hrun.
    + left. by rewrite Hrun.
  - right. left. split; [unfold isQuery; by rewrite Hmut|].
    apply query_onlyAllocates. unfold isQuery. by rewrite Hmut.
Qed.

End CallEffects.

(** ** The chains and the log over sequences of calls *)

Section Ledger.

Lemma exec_app l1 l2 s : exec (l1 ++ l2) s = exec l2 (exec l1 s).
Proof. unfold exec. by rewrite fold_left_app. Qed.

Lemma eventsOf_snoc p l e :
  eventsOf p (l ++ [e])
  = (eventsOf p l ++ if bool_decide (e.(productId) = p) then [e] else [])%list.
Proof. unfold eventsOf. by rewrite List.filter_app. Qed.

(** A product's chain is the part of the global log that carries its id. *)
Lemma chain_log_filter calls p :
  match chainOf (exec calls initialStore) p with
  | Some c => c = eventsOf p (globalLog (exec calls initialStore))
  | None => eventsOf p (globalLog (exec calls initialStore)) = []
  end.
Proof.
  induction calls as [|[c env] calls IH] using rev_ind; [done|].
  rewrite exec_snoc. pose proof (exec_invariant calls) as Hinv.
  set (s := exec calls initialStore) in *.
  destruct (run_extends c env s Hinv) as [->|[[_ Halloc]|[Hmut [v Hrun]]]]; [exact IH| |].
  - rewrite (onlyAllocates_chainOf _ _ _ (proj1 Hinv) Halloc).
    by rewrite (onlyAllocates_globalLog _ _ (proj1 Hinv) Halloc).
  - destruct (mutation_effect c env s v _ Hinv Hmut Hrun)
      as (e & _ & Hid & _ & _ & Hlog & Hchain & Hframe & _).
    rewrite Hlog, eventsOf_snoc. destruct (decide (p = productOf c)) as [->|Hne].
    + rewrite Hchain, bool_decide_eq_true_2 by done.
      destruct (chainOf s (productOf c)) as [c0|]; cbn; by rewrite IH.
    + rewrite (Hframe _ Hne), bool_decide_eq_false_2 by congruence.
      rewrite app_nil_r. exact IH.
Qed.

Lemma run_prefix c env s p chain :
  storeInvariant s -> chainOf s p = Some chain ->
  (exists ext, chainOf (snd (run c env s)) p = Some (chain ++ ext)%list)
  /\ exists ext, globalLog (snd (run c env s)) = (globalLog s ++ ext)%list.
Proof.
  intros Hinv Hp.
  destruct (run_extends c env s Hinv) as [->|[[_ Halloc]|[Hmut [v Hrun]]]].
  - split; exists []; by rewrite app_nil_r.
  - rewrite (onlyAllocates_chainOf _ _ _ (proj1 Hinv) Halloc).
    rewrite (onlyAllocates_globalLog _ _ (proj1 Hinv) Halloc).
    split; exists []; by rewrite app_nil_r.
  - destruct (mutation_effect c env s v _ Hinv Hmut Hrun)
      as (e & _ & _ & _ & _ & Hlog & Hchain & Hframe & _).
    split; [|by exists [e]].
    destruct (decide (p = productOf c)) as [->|Hne].
    + exists [e]. by rewrite Hchain, Hp.
    + exists []. by rewrite (Hframe _ Hne), app_nil_r.
Qed.

Lemma StronglySorted_filter {A} (R : A -> A -> Prop) (f : A -> bool) l :
  StronglySorted R l -> StronglySorted R (List.filter f l).
Proof.
  induction 1 as [|x l Hl IH Hx]; cbn; [constructor|].
  destruct (f x); [|exact IH]. constructor; [exact IH|].
  rewrite Forall_forall in *. intros y Hy. apply Hx.
  apply list_elem_of_In, filter_In in Hy as [Hy _]. by apply list_elem_of_In.
Qed.

Lemma stepEffect_history s env s' p a :
  stepEffect s env s' -> productHistory s !! p = Some a ->
  productHistory s' !! p = Some a.
Proof.
  intros Hstep Hp.
  destruct Hstep as [s' (Hph & _)|q e Hq _ _ _|q b records latest e _ _ _ _ _]; cbn.
  - by rewrite Hph.
  - rewrite lookup_insert_ne; [done|]. intros ->. congruence.
  - done.
Qed.

Lemma exec_history calls s p a :
  storeInvariant s -> productHistory s !! p = Some a ->
  storeInvariant (exec calls s) /\ productHistory (exec calls s) !! p = Some a.
Proof.
  intros Hinv Hp. induction calls as [|[c env] calls [IHinv IHp]] using rev_ind; [done|].
  rewrite exec_snoc. pose proof (run_stepEffect c env _ IHinv) as Hstep. split.
  - by eapply stepEffect_invariant.
  - by eapply stepEffect_history.
Qed.

(** An array that neither field of the service refers to is left alone. *)
Lemma stepEffect_unowned s env s' (a : nat) :
  storeInvariant s -> stepEffect s env s' ->
  (a < length (arrays s))%nat -> a <> allTransactions s ->
  (forall p, productHistory s !! p <> Some a) ->
  arrays s' !! a = arrays s !! a
  /\ (a < length (arrays s'))%nat /\ a <> allTransactions s'
  /\ (forall p, productHistory s' !! p <> Some a).
Proof.
  intros [Hwf _] Hstep Hlt Hall Hfree.
  destruct Hstep as [s' Halloc|q e Hq _ _ _|q b records latest e Hq _ _ _ _]; cbn.
  - pose proof Halloc as (Hph & Halls & fresh & Harr).
    split; [by apply onlyAllocates_lookup|].
    rewrite Hph, Halls, Harr, length_app. split; [lia | done].
  - split.
    { rewrite lookup_app_l by (by rewrite length_insert).
      by rewrite list_lookup_insert_ne. }
    rewrite length_app, length_insert. split; [lia|]. split; [done|].
    intros p. rewrite lookup_insert. case_decide; [|apply Hfree].
    intros [= <-]. lia.
  - split.
    { rewrite list_lookup_insert_ne by done.
      rewrite list_lookup_insert_ne; [done|]. intros ->. by apply (Hfree q). }
    rewrite !length_insert. done.
Qed.

Lemma exec_unowned calls s (a : nat) :
  storeInvariant s ->
  (a < length (arrays s))%nat -> a <> allTransactions s ->
  (forall p, productHistory s !! p <> Some a) ->
  arrays (exec calls s) !! a = arrays s !! a.
Proof.
  intros Hinv Hlt Hall Hfree.
  cut (storeInvariant (exec calls s)
       /\ arrays (exec calls s) !! a = arrays s !! a
       /\ (a < length (arrays (exec calls s)))%nat
       /\ a <> allTransactions (exec calls s)
       /\ (forall p, productHistory (exec calls s) !! p <> Some a));
    [intros (_ & Ha & _); exact Ha|].
  induction calls as [|[c env] calls (IHinv & IHa & IHlt & IHall & IHfree)] using rev_ind;
    [done|].
  rewrite exec_snoc. pose proof (run_stepEffect c env _ IHinv) as Hstep.
  destruct (stepEffect_unowned _ env _ a IHinv Hstep IHlt IHall IHfree)
    as (Ha & Hlt' & Hall' & Hfree').
  split; [by eapply stepEffect_invariant|]. by rewrite Ha.
Qed.

Lemma getAllTransactions_fresh filters s :
  exists a s',
    getAllTransactions filters s = (Return a, s')
    /\ onlyAllocates s s'
    /\ (length (arrays s) <= a < length (arrays s'))%nat.
Proof.
  unfold getAllTransactions. generalize (default Filters.empty filters).
  clear filters. intros filters.
  set (s1 := {| arrays := (arrays s ++ [globalLog s])%list;
                productHistory := productHistory s;
                allTransactions := allTransactions s |}).
  assert (H1 : onlyAllocates s s1) by apply onlyAllocates_new, onlyAllocates_refl.
  assert (L1 : arrays s1 !! length (arrays s) = Some (globalLog s))
    by (by apply list_lookup_middle).
  destruct (filterIf_spec Js.truthy_string (Filters.owner filters) ownerIncludes
              s s1 _ _ H1 (le_n _) L1) as (a2 & s2 & E2 & H2 & G2 & L2).
  destruct (filterIf_spec Js.truthy_string (Filters.previousOwner filters)
              previousOwnerIncludes s s2 _ _ H2 G2 L2) as (a3 & s3 & E3 & H3 & G3 & L3).
  destruct (filterIf_spec Js.truthy_number (Filters.startTime filters) notBefore
              s s3 _ _ H3 G3 L3) as (a4 & s4 & E4 & H4 & G4 & L4).
  destruct (filterIf_spec Js.truthy_number (Filters.endTime filters) notAfter
              s s4 _ _ H4 G4 L4) as (a5 & s5 & E5 & H5 & G5 & L5).
  eexists a5, _.
  unfold bind at 1. unfold thisAllTransactions.
  unfold bind at 1. unfold spread, bind at 1, readArray, newArray. fold (globalLog s). fold s1.
  unfold bind at 1. rewrite E2.
  unfold bind at 1. rewrite E3.
  unfold bind at 1. rewrite E4.
  unfold bind at 1. rewrite E5.
  unfold_monad. rewrite L5. cbn [from_option id].
  split; [reflexivity|]. split; [by apply onlyAllocates_write|].
  cbn. rewrite length_insert. split; [exact G5 | by eapply lookup_lt_Some].
Qed.

End Ledger.

(** ** Further properties of the ledger *)

(** X1: a product that was never created is unknown to every call that
    needs it.  [transferOwnership], [recordRepair] and [getProductHistory]
    throw the same error and hand the store back. *)
Theorem unknown_product_rejected (s : Store) (p cur n o : string) (md : option string)
    (env : Env) :
  productHistory s !! p = None ->
  transferOwnership p cur n env s = (Throw (Error "Product ID does not exist"), s)
  /\ recordRepair p o md env s = (Throw (Error "Product ID does not exist"), s)
  /\ getProductHistory p s = (Throw (Error "Product ID does not exist"), s).
Proof.
  intros Hp. split; [by apply transfer_unknown|]. split; [by apply repair_unknown|].
  by apply getProductHistory_unknown.
Qed.

Lemma unknown_product_rejected_witness :
  transferOwnership "BIKE-404" "A" "B" (Sample.online 5000 "sig5")
    (exec Sample.bike initialStore)
  = (Throw (Error "Product ID does not exist"), exec Sample.bike initialStore)
  /\ recordRepair "BIKE-404" "A" None (Sample.online 5000 "sig5")
       (exec Sample.bike initialStore)
     = (Throw (Error "Product ID does not exist"), exec Sample.bike initialStore)
  /\ getProductHistory "BIKE-404" (exec Sample.bike initialStore)
     = (Throw (Error "Product ID does not exist"), exec Sample.bike initialStore).
Proof.
  apply (unknown_product_rejected (exec Sample.bike initialStore) "BIKE-404").
  vm_compute. reflexivity.
Defined.

(** X2: calls are all-or-nothing.  After any sequence of calls, a call
    either returns, or throws an [Error] with one of the three messages of
    the service and leaves the store exactly as it was; it never ends in a
    [TypeError] on an empty history, and it never runs on for ever. *)
Theorem calls_return_or_reject (calls : list (Call * Env)) (c : Call) (env : Env) :
  (exists v s', run c env (exec calls initialStore) = (Return v, s'))
  \/ (exists msg,
        run c env (exec calls initialStore)
        = (Throw (Error msg), exec calls initialStore)
        /\ domainError msg).
Proof. apply run_returns_or_rejects, exec_invariant. Qed.

(** X3: the two structures agree.  After any sequence of calls, the chain
    of a product is exactly the events of the global log that carry its id,
    in the order of the log; the log holds no event of a product that has no
    chain. *)
Theorem chain_is_log_of_product (calls : list (Call * Env)) (p : string) :
  match chainOf (exec calls initialStore) p with
  | Some c => c = eventsOf p (globalLog (exec calls initialStore))
  | None => eventsOf p (globalLog (exec calls initialStore)) = []
  end.
Proof. apply chain_log_filter. Qed.

(** X4: the ledger only grows.  Whatever calls follow, a chain that exists
    keeps its events as a prefix, and so does the global log: no product is
    deleted, no event is removed, changed or reordered. *)
Theorem ledger_is_append_only (calls more : list (Call * Env)) (p : string)
    (chain : list Event) :
  chainOf (exec calls initialStore) p = Some chain ->
  (exists ext, chainOf (exec (calls ++ more) initialStore) p = Some (chain ++ ext)%list)
  /\ exists ext,
       globalLog (exec (calls ++ more) initialStore)
       = (globalLog (exec calls initialStore) ++ ext)%list.
Proof.
  intros Hp. induction more as [|[c env] more [[ext1 IH1] [ext2 IH2]]] using rev_ind.
  - rewrite app_nil_r. split; exists []; by rewrite app_nil_r.
  - rewrite app_assoc, exec_snoc.
    destruct (run_prefix c env _ p _ (exec_invariant (calls ++ more)) IH1)
      as [[e1 H1] [e2 H2]].
    split.
    + exists (ext1 ++ e1)%list. by rewrite H1, app_assoc.
    + exists (ext2 ++ e2)%list. by rewrite H2, IH2, app_assoc.
Qed.

Lemma ledger_is_append_only_witness :
  (exists ext,
     chainOf (exec (Sample.created ++ Sample.clockSetBack) initialStore) "BIKE-001"
     = Some (take 1 Sample.bikeChain ++ ext)%list)
  /\ exists ext,
       globalLog (exec (Sample.created ++ Sample.clockSetBack) initialStore)
       = (globalLog (exec Sample.created initialStore) ++ ext)%list.
Proof.
  apply (ledger_is_append_only Sample.created Sample.clockSetBack "BIKE-001").
  vm_compute. reflexivity.
Defined.

(** X5: a call about one product does not touch the others.  After any
    sequence of calls, whatever a call does, the chain of every product other
    than the one the call names reads as before. *)
Theorem other_products_untouched (calls : list (Call * Env)) (c : Call) (env : Env)
    (q : string) :
  q <> productOf c ->
  chainOf (snd (run c env (exec calls initialStore))) q
  = chainOf (exec calls initialStore) q.
Proof.
  intros Hq. pose proof (exec_invariant calls) as Hinv.
  destruct (run_extends c env _ Hinv) as [->|[[_ Halloc]|[Hmut [v Hrun]]]]; [done| |].
  - by apply onlyAllocates_chainOf; [apply Hinv|].
  - destruct (mutation_effect c env _ v _ Hinv Hmut Hrun)
      as (e & _ & _ & _ & _ & _ & _ & Hframe & _).
    by apply Hframe.
Qed.

Lemma other_products_untouched_witness :
  chainOf (snd (run (CreateProduct "BIKE-002" None "Z") (Sample.online 5000 "sig5")
                  (exec Sample.bike initialStore))) "BIKE-001"
  = chainOf (exec Sample.bike initialStore) "BIKE-001".
Proof.
  apply (other_products_untouched Sample.bike (CreateProduct "BIKE-002" None "Z")
           (Sample.online 5000 "sig5") "BIKE-001").
  vm_compute. discriminate.
Defined.

(** X6: when each call goes through.  After any sequence of calls,
    [createProduct] returns exactly when the product has no chain,
    [transferOwnership] and [recordRepair] exactly when the owner supplied is
    the product's current owner, and [getProductHistory] exactly when the
    product has a chain, in which case the array it returns holds the
    chain. *)
Theorem calls_succeed_exactly_when (calls : list (Call * Env))
    (p cur n o : string) (md : option string) (env : Env) :
  ((exists r s', createProduct p md o env (exec calls initialStore) = (Return r, s'))
   <-> chainOf (exec calls initialStore) p = None)
  /\ ((exists r s', transferOwnership p cur n env (exec calls initialStore) = (Return r, s'))
      <-> currentOwner (exec calls initialStore) p = Some cur)
  /\ ((exists r s', recordRepair p o md env (exec calls initialStore) = (Return r, s'))
      <-> currentOwner (exec calls initialStore) p = Some o)
  /\ ((exists a s', getProductHistory p (exec calls initialStore) = (Return a, s')
                    /\ arrays s' !! a = chainOf (exec calls initialStore) p)
      <-> is_Some (chainOf (exec calls initialStore) p)).
Proof.
  destruct (exec_invariant calls) as [Hwf Hchains].
  set (s := exec calls initialStore) in *.
  destruct (productHistory s !! p) as [a|] eqn:Hp.
  - destruct (Hchains _ _ Hp) as (records & Ha & Hcustody).
    destruct (chainOfCustody_last _ Hcustody) as [latest Hlast].
    assert (Hchain : chainOf s p = Some records) by (unfold chainOf; by rewrite Hp).
    rewrite (currentOwner_chain _ _ _ _ Hchain Hlast), Hchain.
    split; [|split; [|split]].
    + rewrite (createProduct_existing _ _ _ _ _ _ Hp). split; [|done].
      intros (r & s' & [=]).
    + split.
      * intros (r & s' & Hrun). destruct (decide (latest.(owner) = cur)) as [->|Hne]; [done|].
        rewrite (transfer_mismatch _ _ _ _ _ _ _ _ Hp Ha Hlast Hne) in Hrun. discriminate.
      * intros [= Heq].
        destruct (transfer_success s p cur n env a records latest Hwf Hp Ha Hlast Heq)
          as (sig & e & s1 & Hrun & _). by eexists _, _.
    + split.
      * intros (r & s' & Hrun). destruct (decide (latest.(owner) = o)) as [->|Hne]; [done|].
        rewrite (repair_mismatch _ _ _ _ _ _ _ _ Hp Ha Hlast Hne) in Hrun. discriminate.
      * intros [= Heq].
        destruct (repair_success s p o md env a records latest Hwf Hp Ha Hlast Heq)
          as (sig & e & s1 & Hrun & _). by eexists _, _.
    + split; [done|]. intros _. exists a, s.
      split; [by apply getProductHistory_known | done].
  - assert (Hchain : chainOf s p = None) by (unfold chainOf; by rewrite Hp).
    unfold currentOwner. rewrite Hchain.
    split; [|split; [|split]].
    + split; [done|]. intros _.
      destruct (createProduct_fresh s p md o env Hwf Hp) as (sig & e & s1 & Hrun & _).
      by eexists _, _.
    + rewrite (transfer_unknown _ _ _ _ _ Hp). split; [|done]. intros (r & s' & [=]).
    + rewrite (repair_unknown _ _ _ _ _ Hp). split; [|done]. intros (r & s' & [=]).
    + split; [|by intros [? [=]]]. intros (a & s' & Hrun & _).
      rewrite (getProductHistory_unknown _ _ Hp) in Hrun. discriminate.
Qed.

(** X7: a mutation that returns leaves its product with the owner the call
    names.  After any sequence of calls, once [createProduct] returns the
    current owner is the manufacturer, once [transferOwnership] returns it is
    the next owner, once [recordRepair] returns it is still the owner who
    recorded the repair; the current owner of every other product is as
    before. *)
Theorem mutation_sets_current_owner (calls : list (Call * Env)) (c : Call) (env : Env)
    (v : Value) (s' : Store) :
  isMutation c = true ->
  run c env (exec calls initialStore) = (Return v, s') ->
  currentOwner s' (productOf c) = Some (ownerAfter c)
  /\ currentOwner (exec calls initialStore) (productOf c) = actingOwner c
  /\ forall q, q <> productOf c ->
       currentOwner s' q = currentOwner (exec calls initialStore) q.
Proof.
  intros Hmut Hrun.
  destruct (mutation_effect c env _ v s' (exec_invariant calls) Hmut Hrun)
    as (e & _ & _ & _ & Howner & _ & Hchain & Hframe & Hacting & _).
  split; [|split; [exact Hacting|]].
  - unfold currentOwner. rewrite Hchain, last_snoc. cbn. by rewrite Howner.
  - intros q Hq. unfold currentOwner. by rewrite (Hframe _ Hq).
Qed.

Lemma mutation_sets_current_owner_witness :
  currentOwner (snd (run (TransferOwnership "BIKE-001" "B" "C")
                       (Sample.online 5000 "sig5") (exec Sample.bike initialStore)))
    "BIKE-001" = Some "C"
  /\ currentOwner (exec Sample.bike initialStore) "BIKE-001" = Some "B"
  /\ forall q, q <> "BIKE-001" ->
       currentOwner (snd (run (TransferOwnership "BIKE-001" "B" "C")
                            (Sample.online 5000 "sig5") (exec Sample.bike initialStore))) q
       = currentOwner (exec Sample.bike initialStore) q.
Proof.
  apply (mutation_sets_current_owner Sample.bike (TransferOwnership "BIKE-001" "B" "C")
           (Sample.online 5000 "sig5")
           (VReceipt {| Receipt.signature := "sig5"; Receipt.account := None |})).
  - reflexivity.
  - vm_compute. reflexivity.
Defined.

(** X8: [getProductHistory] hands out the live history array, not a copy.
    After any sequence of calls, the array it returns is the product's
    chain, and it stays so whatever calls follow: events appended later show
    through it, and a later [getProductHistory] returns the same array. *)
Theorem getProductHistory_returns_live_array (calls more : list (Call * Env))
    (p : string) (a : nat) (s1 : Store) :
  getProductHistory p (exec calls initialStore) = (Return a, s1) ->
  s1 = exec calls initialStore
  /\ arrays (exec more s1) !! a = chainOf (exec more s1) p
  /\ is_Some (chainOf (exec more s1) p)
  /\ getProductHistory p (exec more s1) = (Return a, exec more s1).
Proof.
  intros Hrun. pose proof (exec_invariant calls) as Hinv.
  destruct (productHistory (exec calls initialStore) !! p) as [b|] eqn:Hp.
  2: { rewrite (getProductHistory_unknown _ _ Hp) in Hrun. discriminate. }
  rewrite (getProductHistory_known _ _ _ Hp) in Hrun. injection Hrun as <- <-.
  split; [done|].
  destruct (exec_history more _ p b Hinv Hp) as [[_ Hchains] Hp'].
  destruct (Hchains _ _ Hp') as (c & Hc & _).
  unfold chainOf. rewrite Hp'. split; [done|]. split; [by rewrite Hc|].
  by apply getProductHistory_known.
Qed.

Lemma getProductHistory_returns_live_array_witness :
  arrays (exec Sample.bike (exec Sample.created initialStore)) !! 1%nat
  = chainOf (exec Sample.bike (exec Sample.created initialStore)) "BIKE-001"
  /\ is_Some (chainOf (exec Sample.bike (exec Sample.created initialStore)) "BIKE-001").
Proof.
  destruct (getProductHistory_returns_live_array Sample.created Sample.bike "BIKE-001" 1
              (exec Sample.created initialStore)) as (_ & Hlive & Hsome & _).
  - vm_compute. reflexivity.
  - split; [exact Hlive | exact Hsome].
Defined.

(** X9: [getRecentTransactions] and [getAllTransactions] hand out
    snapshots.  After any sequence of calls, the array either of them returns
    is a new one, and no later call changes what it holds. *)
Theorem query_results_are_snapshots (calls more : list (Call * Env)) (c : Call)
    (env : Env) (a : nat) (s1 : Store) :
  isQuery c = true ->
  (forall p, c <> GetProductHistory p) ->
  run c env (exec calls initialStore) = (Return (VArray a), s1) ->
  (length (arrays (exec calls initialStore)) <= a)%nat
  /\ arrays (exec more s1) !! a = arrays s1 !! a.
Proof.
  intros Hq Hnot Hrun. pose proof (exec_invariant calls) as Hinv.
  set (s := exec calls initialStore) in *.
  assert (Hfresh : (length (arrays s) <= a < length (arrays s1))%nat
                   /\ onlyAllocates s s1).
  { destruct c as [p md o|p cur n|p o md|p|limit|filters]; try discriminate Hq.
    - by destruct (Hnot p).
    - cbn [run] in Hrun. apply fmapM_Return in Hrun as (b & Hrun & [= ->]).
      rewrite getRecentTransactions_spec in Hrun. injection Hrun as <- <-.
      split; [|apply onlyAllocates_new, onlyAllocates_refl].
      cbn. rewrite length_app. cbn. lia.
    - cbn [run] in Hrun. apply fmapM_Return in Hrun as (b & Hrun & [= ->]).
      destruct (getAllTransactions_fresh filters s) as (a' & s' & Hrun' & Halloc & Hlt).
      rewrite Hrun' in Hrun. by injection Hrun as <- <-. }
  destruct Hfresh as [[Hge Hlt] Halloc]. split; [exact Hge|].
  assert (Hinv1 : storeInvariant s1).
  { eapply (stepEffect_invariant s env); [exact Hinv | by apply effect_allocate]. }
  pose proof Halloc as (Hph & Hall & _). destruct Hinv as [Hwf _].
  apply exec_unowned; [exact Hinv1 | exact Hlt | |].
  - rewrite Hall. pose proof (wf_all _ Hwf). lia.
  - intros p. rewrite Hph. intros Hp. destruct (wf_history _ Hwf _ _ Hp). lia.
Qed.

Lemma query_results_are_snapshots_witness :
  (length (arrays (exec Sample.created initialStore)) <= 2)%nat
  /\ arrays (exec Sample.bike
               (snd (run (GetRecentTransactions None) (Sample.online 5000 "sig5")
                       (exec Sample.created initialStore)))) !! 2%nat
     = arrays (snd (run (GetRecentTransactions None) (Sample.online 5000 "sig5")
                      (exec Sample.created initialStore))) !! 2%nat.
Proof.
  apply (query_results_are_snapshots Sample.created Sample.bike
           (GetRecentTransactions None) (Sample.online 5000 "sig5") 2).
  - reflexivity.
  - discriminate.
  - vm_compute. reflexivity.
Defined.

(** X10: a negative limit drops the oldest entries.  For [k > 0],
    [getRecentTransactions(-k)] returns the global log without its [k]
    oldest entries, newest first (nothing when the log has at most [k]
    entries). *)
Theorem getRecentTransactions_negative_limit (s : Store) (k : Z) :
  0 < k ->
  exists a s',
    getRecentTransactions (Some (- k)) s = (Return a, s')
    /\ arrays s' !! a = Some (rev (drop (Z.to_nat k) (globalLog s))).
Proof.
  intros Hk. eexists _, _. split; [apply getRecentTransactions_spec|].
  cbn [arrays from_option id]. rewrite list_lookup_middle by done.
  do 2 f_equal. unfold Js.slice. rewrite Z.opp_involutive.
  destruct (k <? 0) eqn:Hneg; [apply Z.ltb_lt in Hneg; lia|].
  destruct (decide (k <= Z.of_nat (length (globalLog s)))) as [Hle|Hgt].
  - by rewrite Z.min_l by lia.
  - rewrite Z.min_r by lia. rewrite !drop_ge; [done|lia..].
Qed.

Lemma getRecentTransactions_negative_limit_witness :
  exists a s',
    getRecentTransactions (Some (- 1)) (exec Sample.bike initialStore) = (Return a, s')
    /\ arrays s' !! a
       = Some (rev (drop (Z.to_nat 1) (globalLog (exec Sample.bike initialStore)))).
Proof.
  apply (getRecentTransactions_negative_limit (exec Sample.bike initialStore) 1). lia.
Defined.

(** X11: a product's history is in time order when the clock is.  After a
    sequence of calls during which the clock never went back, the events of
    every chain have non-decreasing timestamps, oldest first. *)
Theorem chain_is_oldest_first (calls : list (Call * Env)) (p : string)
    (chain : list Event) :
  clockNeverGoesBack calls ->
  chainOf (exec calls initialStore) p = Some chain ->
  oldestFirst chain.
Proof.
  intros Hclock Hp. pose proof (chain_log_filter calls p) as Hfilter.
  rewrite Hp in Hfilter. subst chain.
  by apply StronglySorted_filter, globalLog_oldestFirst.
Qed.

Lemma chain_is_oldest_first_witness : oldestFirst Sample.bikeChain.
Proof.
  apply (chain_is_oldest_first Sample.bike "BIKE-001").
  - unfold clockNeverGoesBack. cbn. repeat constructor; lia.
  - vm_compute. reflexivity.
Defined.

Section CaseInsensitive.

Lemma applied_owner_lower w1 w2 tx :
  Js.toLowerCase <$> w1 = Js.toLowerCase <$> w2 ->
  applied Js.truthy_string w1 ownerIncludes tx
  = applied Js.truthy_string w2 ownerIncludes tx.
Proof.
  destruct w1 as [w1|], w2 as [w2|]; try done. intros [= Heq]. unfold applied.
  rewrite <-(toLowerCase_truthy w1), <-(toLowerCase_truthy w2), Heq.
  unfold ownerIncludes. by rewrite Heq.
Qed.

Lemma applied_previousOwner_lower w1 w2 tx :
  Js.toLowerCase <$> w1 = Js.toLowerCase <$> w2 ->
  applied Js.truthy_string w1 previousOwnerIncludes tx
  = applied Js.truthy_string w2 previousOwnerIncludes tx.
Proof.
  destruct w1 as [w1|], w2 as [w2|]; try done. intros [= Heq]. unfold applied.
  rewrite <-(toLowerCase_truthy w1), <-(toLowerCase_truthy w2), Heq.
  unfold previousOwnerIncludes. by rewrite Heq.
Qed.

End CaseInsensitive.

(** X12: on ASCII text the owner filters ignore letter case.  For filter
    strings and logged owners in ASCII and bounds that are safe integers, two
    filter objects whose [owner] and [previousOwner] differ only in the case
    of their letters (they agree after lower-casing), and whose bounds are
    the same, make [getAllTransactions] return arrays with the same
    contents. *)
Theorem getAllTransactions_ignores_case (s : Store) (f1 f2 : Filters.t) :
  modelledFilters f1 = true ->
  modelledFilters f2 = true ->
  asciiLog (globalLog s) = true ->
  Js.toLowerCase <$> Filters.owner f1 = Js.toLowerCase <$> Filters.owner f2 ->
  Js.toLowerCase <$> Filters.previousOwner f1
  = Js.toLowerCase <$> Filters.previousOwner f2 ->
  Filters.startTime f1 = Filters.startTime f2 ->
  Filters.endTime f1 = Filters.endTime f2 ->
  exists a1 s1 a2 s2 out,
    getAllTransactions (Some f1) s = (Return a1, s1)
    /\ getAllTransactions (Some f2) s = (Return a2, s2)
    /\ arrays s1 !! a1 = Some out
    /\ arrays s2 !! a2 = Some out.
Proof.
  intros _ _ _ Ho Hp Hs He.
  destruct (getAllTransactions_spec (Some f1) s) as (a1 & s1 & Hrun1 & _ & Hout1).
  destruct (getAllTransactions_spec (Some f2) s) as (a2 & s2 & Hrun2 & _ & Hout2).
  eexists a1, s1, a2, s2, _. do 3 (split; [eassumption|]).
  rewrite Hout2. do 2 f_equal. apply List.filter_ext. intros tx.
  unfold keeps. cbn [from_option id].
  by rewrite (applied_owner_lower _ _ tx Ho), (applied_previousOwner_lower _ _ tx Hp), Hs, He.
Qed.

Lemma getAllTransactions_ignores_case_witness :
  exists a1 s1 a2 s2 out,
    getAllTransactions (Some (Sample.onlyOwner "b")) (exec Sample.bike initialStore)
    = (Return a1, s1)
    /\ getAllTransactions (Some (Sample.onlyOwner "B")) (exec Sample.bike initialStore)
       = (Return a2, s2)
    /\ arrays s1 !! a1 = Some out
    /\ arrays s2 !! a2 = Some out.
Proof.
  apply (getAllTransactions_ignores_case (exec Sample.bike initialStore)
           (Sample.onlyOwner "b") (Sample.onlyOwner "B")); vm_compute; reflexivity.
Defined.

(** ** Reading an encoding back *)

Section Base58Inverse.

Lemma alphabet_index (i : nat) (c : ascii) :
  String.get i ALPHABET = Some c -> indexIn c ALPHABET = Some (N.of_nat i).
Proof.
  do 58 (destruct i as [|i]; [intros [= <-]; reflexivity|]). discriminate.
Qed.

Lemma alphabet_one (i : nat) : String.get i ALPHABET = Some "1"%char -> i = 0%nat.
Proof.
  destruct i as [|i]; [done|].
  do 57 (destruct i as [|i]; [discriminate|]). discriminate.
Qed.

Lemma get_In (i : nat) (s : string) (c : ascii) :
  String.get i s = Some c -> In c (list_ascii_of_string s).
Proof.
  revert i. induction s as [|d s IH]; intros i; [discriminate|].
  destruct i as [|i]; cbn; [intros [= ->]; by left | intros H; right; by eapply IH].
Qed.

Lemma append_cons (d : ascii) (s t : string) : String d s +:+ t = String d (s +:+ t).
Proof. reflexivity. Qed.

Lemma append_snoc (pre : string) (c : ascii) (acc : string) :
  (pre +:+ String c EmptyString) +:+ acc = pre +:+ String c acc.
Proof. induction pre as [|d pre IH]; [done|]. by rewrite !append_cons, IH. Qed.

Lemma append_empty_r (s : string) : s +:+ EmptyString = s.
Proof. induction s as [|d s IH]; [done|]. by rewrite append_cons, IH. Qed.

Lemma readBase58_app (x y : string) (acc : N) :
  readBase58 (x +:+ y) acc = readBase58 y (readBase58 x acc).
Proof.
  revert acc. induction x as [|c x IH]; intros acc; [done|].
  rewrite append_cons. cbn [readBase58]. apply IH.
Qed.

(** What repeated division writes in front of [acc] is the numeral of [n],
    and it does not start with the symbol for zero. *)
Lemma divide58_numeral (n : N) (acc out : string) :
  Base58Spec.divide58 n acc out ->
  exists pre,
    out = pre +:+ acc
    /\ (forall a, readBase58 pre a = (a * 58 ^ N.of_nat (String.length pre) + n)%N)
    /\ (n = 0%N -> pre = EmptyString)
    /\ ((0 < n)%N -> exists c rest, pre = String c rest /\ c <> "1"%char).
Proof.
  induction 1 as [acc|n c acc out Hpos Hc _ (pre & -> & Hread & Hzero & Hfirst)].
  - exists EmptyString. split; [done|]. split; [intros a; cbn; lia|].
    split; [done | lia].
  - exists (pre +:+ String c EmptyString). split; [by rewrite append_snoc|].
    split; [|split; [lia|]].
    + intros a. rewrite readBase58_app, Hread. cbn [readBase58].
      rewrite (alphabet_index _ _ Hc). cbn [from_option id].
      rewrite N2Nat.id.
      replace (String.length (pre +:+ String c EmptyString)) with (S (String.length pre)).
      2: { clear. induction pre as [|d pre IH]; [done|].
           rewrite append_cons. cbn [String.length]. by rewrite <-IH. }
      rewrite Nat2N.inj_succ, N.pow_succ_r'.
      pose proof (N.div_mod n 58%N). lia.
    + intros _. destruct (N.eq_dec (n / 58)%N 0%N) as [Hq|Hq].
      * rewrite (Hzero Hq). exists c, EmptyString. split; [done|].
        intros ->. apply alphabet_one in Hc.
        apply (f_equal N.of_nat) in Hc. rewrite N2Nat.id in Hc.
        pose proof (N.Div0.div_mod n 58%N) as Hn. rewrite Hq, Hc in Hn. cbn in Hn.
        subst n. by apply N.lt_irrefl in Hpos.
      * destruct Hfirst as (c' & rest & -> & Hc'); [by apply N.neq_0_lt_0|].
        exists c', (rest +:+ String c EmptyString). by rewrite append_cons.
Qed.

Lemma leadingOnesOf_iter (z : nat) (body : string) :
  leadingOnesOf (Nat.iter z (String "1"%char) body) = (z + leadingOnesOf body)%nat.
Proof.
  induction z as [|z IH]; [done|].
  change (S (leadingOnesOf (Nat.iter z (String "1"%char) body))
          = S (z + leadingOnesOf body)).
  by rewrite IH.
Qed.

Lemma readBase58_iter (z : nat) (body : string) :
  readBase58 (Nat.iter z (String "1"%char) body) 0 = readBase58 body 0.
Proof. induction z as [|z IH]; [done|]. exact IH. Qed.

Lemma iter_inj (z : nat) (b1 b2 : string) :
  Nat.iter z (String "1"%char) b1 = Nat.iter z (String "1"%char) b2 -> b1 = b2.
Proof. induction z as [|z IH]; cbn; [done|]. intros [= H]. by apply IH. Qed.

(** The shape of every encoding the specified algorithm describes. *)
Lemma encodes_shape (bytes : list byte) (out : string) :
  Base58Spec.encodes bytes out ->
  exists body,
    out = Nat.iter (Base58Spec.leadingZeros bytes) (String "1"%char) body
    /\ readBase58 body 0 = Base58Spec.value bytes
    /\ leadingOnesOf body = 0%nat
    /\ (body = EmptyString <-> Base58Spec.value bytes = 0%N).
Proof.
  intros (body & Hdiv & ->).
  destruct (divide58_numeral _ _ _ Hdiv) as (pre & Hbody & Hread & Hzero & Hfirst).
  rewrite append_empty_r in Hbody. subst pre. exists body.
  split; [done|]. split; [rewrite Hread; lia|].
  destruct (N.eq_dec (Base58Spec.value bytes) 0%N) as [Hv|Hv].
  - rewrite (Hzero Hv). done.
  - destruct Hfirst as (c & rest & -> & Hc); [lia|]. split; [|done].
    cbn. by destruct c as [[] [] [] [] [] [] [] []].
Qed.

Lemma encodeBase58_encodes (bytes : list byte) (out : string) :
  encodeBase58 bytes = Return out -> bytes <> [] /\ Base58Spec.encodes bytes out.
Proof.
  intros Hrun. assert (Hne : bytes <> []) by (intros ->; discriminate Hrun).
  split; [exact Hne|].
  destruct (encodeBase58_refines_spec _ Hne) as (out' & Hrun' & Hspec).
  rewrite Hrun in Hrun'. by injection Hrun' as ->.
Qed.

Lemma value_snoc (l : list byte) (b : byte) :
  Base58Spec.value (l ++ [b]) = (Base58Spec.value l * 256 + Byte.to_N b)%N.
Proof. unfold Base58Spec.value. by rewrite fold_left_app. Qed.

Lemma to_N_lt (b : byte) : (Byte.to_N b < 256)%N.
Proof. pose proof (Byte.to_N_bounded b). lia. Qed.

Lemma to_N_inj (a b : byte) : Byte.to_N a = Byte.to_N b -> a = b.
Proof.
  intros H. pose proof (Byte.of_to_N a) as Ha. rewrite H, Byte.of_to_N in Ha.
  by injection Ha.
Qed.

Lemma fold_value_ge (l : list byte) (acc : N) :
  (acc <= fold_left (fun a b => a * 256 + Byte.to_N b) l acc)%N.
Proof.
  revert acc. induction l as [|b l IH]; intros acc; cbn; [lia|].
  specialize (IH (acc * 256 + Byte.to_N b)%N). lia.
Qed.

Lemma value_positive (b : byte) (l : list byte) :
  b <> x00 -> (0 < Base58Spec.value (b :: l))%N.
Proof.
  intros Hb. unfold Base58Spec.value. cbn [fold_left].
  pose proof (fold_value_ge l (0 * 256 + Byte.to_N b)%N).
  assert (Byte.to_N b <> 0%N) by (intros H0; apply Hb; by apply to_N_inj).
  lia.
Qed.

Lemma value_zeros_app (z : nat) (l : list byte) :
  Base58Spec.value (replicate z x00 ++ l) = Base58Spec.value l.
Proof. unfold Base58Spec.value. induction z as [|z IH]; [done|]. exact IH. Qed.

Lemma leadingZeros_split (bytes : list byte) :
  exists rest,
    bytes = (replicate (Base58Spec.leadingZeros bytes) x00 ++ rest)%list
    /\ head rest <> Some x00.
Proof.
  induction bytes as [|b bytes (rest & Hsplit & Hhead)]; [by exists []|].
  destruct (Byte.eqb b x00) eqn:Hb.
  - apply Byte.byte_dec_bl in Hb as ->. exists rest. cbn. by rewrite <-Hsplit.
  - assert (b <> x00) as Hne by (intros ->; discriminate Hb).
    exists (b :: bytes). split; [destruct b; first [congruence | reflexivity]|].
    cbn. congruence.
Qed.

(** Two buffers without a leading zero byte that denote the same number
    are the same buffer. *)
Lemma value_inj (l1 l2 : list byte) :
  head l1 <> Some x00 -> head l2 <> Some x00 ->
  Base58Spec.value l1 = Base58Spec.value l2 -> l1 = l2.
Proof.
  assert (Hempty : forall l, head l <> Some x00 -> Base58Spec.value l = 0%N -> l = []).
  { intros [|b l] Hh Hv; [done|]. cbn in Hh.
    assert (b <> x00) as Hb by congruence.
    pose proof (value_positive b l Hb). lia. }
  revert l2. induction l1 as [|b1 l1 IH] using rev_ind; intros l2 H1 H2 Hv.
  - symmetry. apply Hempty; [done|]. by rewrite <-Hv.
  - destruct l2 as [|b2 l2 _] using rev_ind.
    { apply Hempty; [done|]. by rewrite Hv. }
    rewrite !value_snoc in Hv. pose proof (to_N_lt b1). pose proof (to_N_lt b2).
    assert (Base58Spec.value l1 = Base58Spec.value l2) as Hv' by lia.
    assert (Byte.to_N b1 = Byte.to_N b2) as Hb by lia.
    apply to_N_inj in Hb as ->. f_equal. apply IH; [| |exact Hv'].
    + destruct l1; [done | exact H1].
    + destruct l2; [done | exact H2].
Qed.

Lemma encodes_inj (b1 b2 : list byte) (out : string) :
  Base58Spec.encodes b1 out -> Base58Spec.encodes b2 out -> b1 = b2.
Proof.
  intros (body1 & Hout1 & Hread1 & Hones1 & _)%encodes_shape
         (body2 & Hout2 & Hread2 & Hones2 & _)%encodes_shape.
  assert (Hz : Base58Spec.leadingZeros b1 = Base58Spec.leadingZeros b2).
  { pose proof (f_equal leadingOnesOf Hout1) as E1.
    pose proof (f_equal leadingOnesOf Hout2) as E2.
    rewrite leadingOnesOf_iter in E1, E2. lia. }
  assert (Hbody : body1 = body2).
  { rewrite Hout1, Hz in Hout2. by apply iter_inj in Hout2. }
  assert (Hv : Base58Spec.value b1 = Base58Spec.value b2) by congruence.
  destruct (leadingZeros_split b1) as (r1 & Hb1 & Hh1).
  destruct (leadingZeros_split b2) as (r2 & Hb2 & Hh2).
  rewrite Hb1, Hb2, !value_zeros_app in Hv.
  rewrite Hb1, Hb2, Hz. f_equal. by apply value_inj.
Qed.

Lemma alphabet_unambiguous :
  Forall (fun c => c <> "0"%char /\ c <> "O"%char /\ c <> "I"%char /\ c <> "l"%char)
    (list_ascii_of_string ALPHABET).
Proof. cbn. repeat (constructor; [repeat split; discriminate|]). constructor. Qed.

End Base58Inverse.

(** X13: distinct buffers never encode to the same text.  Whenever
    [encodeBase58] returns for two different byte buffers, the two strings
    differ. *)
Theorem encodeBase58_injective (b1 b2 : list byte) (o1 o2 : string) :
  b1 <> b2 ->
  encodeBase58 b1 = Return o1 ->
  encodeBase58 b2 = Return o2 ->
  o1 <> o2.
Proof.
  intros Hne [_ H1]%encodeBase58_encodes [_ H2]%encodeBase58_encodes ->.
  apply Hne. by eapply encodes_inj.
Qed.

Lemma encodeBase58_injective_witness : "21" <> "121".
Proof.
  apply (encodeBase58_injective [x3a] [x00; x3a] "21" "121").
  - discriminate.
  - reflexivity.
  - reflexivity.
Defined.

(** X14: an encoding can be read back.  Whenever [encodeBase58] returns, the
    string starts with exactly as many ['1'] as the buffer has leading zero
    bytes, and read as a base-58 numeral over the alphabet it denotes the
    number the buffer denotes in base 256. *)
Theorem encodeBase58_reads_back (bytes : list byte) (out : string) :
  encodeBase58 bytes = Return out ->
  leadingOnesOf out = Base58Spec.leadingZeros bytes
  /\ readBase58 out 0 = Base58Spec.value bytes.
Proof.
  intros [_ (body & -> & Hread & Hones & _)%encodes_shape]%encodeBase58_encodes.
  split.
  - rewrite leadingOnesOf_iter. lia.
  - by rewrite readBase58_iter.
Qed.

Lemma encodeBase58_reads_back_witness :
  leadingOnesOf "121" = 1%nat /\ readBase58 "121" 0 = 58%N.
Proof.
  apply (encodeBase58_reads_back [x00; x3a] "121"). reflexivity.
Defined.

(** X15: what an encoding looks like.  Whenever [encodeBase58] returns, the
    string is not empty and every character of it is one of the 58 of the
    alphabet, so none is ['0'], ['O'], ['I'] or ['l']. *)
Theorem encodeBase58_text (bytes : list byte) (out : string) :
  encodeBase58 bytes = Return out ->
  out <> EmptyString
  /\ overAlphabet out
  /\ Forall (fun c => c <> "0"%char /\ c <> "O"%char /\ c <> "I"%char /\ c <> "l"%char)
       (list_ascii_of_string out).
Proof.
  intros Hrun. pose proof (encodeBase58_overAlphabet _ _ Hrun) as Hover.
  split; [|split; [exact Hover|]].
  - destruct (encodeBase58_encodes _ _ Hrun) as [Hne Hspec].
    apply encodes_shape in Hspec as (body & -> & _ & _ & Hbody).
    destruct (leadingZeros_split bytes) as (rest & Hsplit & Hhead).
    destruct (Base58Spec.leadingZeros bytes) as [|z]; [|discriminate].
    cbn in *. subst rest. intros ->.
    destruct bytes as [|b l]; [done|].
    assert (b <> x00) as Hb by (cbn in Hhead; congruence).
    pose proof (value_positive b l Hb). rewrite (proj1 Hbody eq_refl) in H. lia.
  - unfold overAlphabet in Hover. eapply Forall_impl; [exact Hover|].
    intros c [i Hi]. cbn beta.
    pose proof alphabet_unambiguous as Hall. rewrite Forall_forall in Hall.
    apply Hall, list_elem_of_In. by eapply get_In.
Qed.

Lemma encodeBase58_text_witness :
  "121" <> EmptyString
  /\ overAlphabet "121"
  /\ Forall (fun c => c <> "0"%char /\ c <> "O"%char /\ c <> "I"%char /\ c <> "l"%char)
       (list_ascii_of_string "121").
Proof.
  apply (encodeBase58_text [x00; x3a] "121"). reflexivity.
Defined.

(** X16: locally minted signatures are as distinct as the random bytes.
    When the anchor write fails in two calls and the random source yields
    different 64 bytes, the two signatures returned differ. *)
Theorem fallback_signatures_differ (env1 env2 : Env) (d1 d2 : string)
    (r1 r2 : Thrown) (sig1 sig2 : string) :
  anchorWrite env1 = Throw r1 ->
  anchorWrite env2 = Throw r2 ->
  randomBytes env1 64 <> randomBytes env2 64 ->
  generateTransactionSignature env1 d1 = Return sig1 ->
  generateTransactionSignature env2 d2 = Return sig2 ->
  sig1 <> sig2.
Proof.
  intros Ha1 Ha2 Hne Hs1 Hs2.
  destruct (mint_cases env1 d1) as (s1 & Hrun1 & Hfall1).
  destruct (mint_cases env2 d2) as (s2 & Hrun2 & Hfall2).
  rewrite Hs1 in Hrun1. injection Hrun1 as <-.
  rewrite Hs2 in Hrun2. injection Hrun2 as <-.
  destruct (Hfall1 _ Ha1) as (_ & _ & He1 & _).
  destruct (Hfall2 _ Ha2) as (_ & _ & He2 & _).
  intros ->. apply Hne. by eapply encodes_inj.
Qed.

Lemma fallback_signatures_differ_witness :
  exists sig1 sig2,
    generateTransactionSignature (Sample.offline 1000 x01) "first" = Return sig1
    /\ generateTransactionSignature (Sample.offline 2000 x02) "second" = Return sig2
    /\ sig1 <> sig2.
Proof.
  eexists _, _. split; [vm_compute; reflexivity|]. split; [vm_compute; reflexivity|].
  apply (fallback_signatures_differ (Sample.offline 1000 x01) (Sample.offline 2000 x02)
           "first" "second" (Error "fetch failed") (Error "fetch failed")).
  - reflexivity.
  - reflexivity.
  - vm_compute. discriminate.
  - vm_compute. reflexivity.
  - vm_compute. reflexivity.
Defined.

Section Listings.

Lemma globalLog_strictly_ordered calls :
  clockAlwaysAdvances calls ->
  StronglySorted (fun a b => a.(timestamp) < b.(timestamp))
    (globalLog (exec calls initialStore)).
Proof.
  unfold clockAlwaysAdvances.
  induction calls as [|[c env] calls IH] using rev_ind; intros Hclock.
  - cbn. constructor.
  - rewrite fmap_app in Hclock. apply StronglySorted_app in Hclock as (Hlt & Hcalls & _).
    rewrite exec_snoc.
    destruct (stepEffect_globalLog _ env _ (exec_invariant calls)
                (run_stepEffect c env _ (exec_invariant calls)))
      as [->|(e' & Hts & ->)]; [by apply IH|].
    apply StronglySorted_app_2; [|by apply IH|repeat constructor].
    intros x1 x2 Hx1 ->%list_elem_of_singleton. rewrite Hts.
    apply Hlt; [by apply globalLog_timestamps | by apply list_elem_of_singleton].
Qed.

Lemma strictly_ordered_oldestFirst l :
  StronglySorted (fun a b => a.(timestamp) < b.(timestamp)) l -> oldestFirst l.
Proof.
  unfold oldestFirst. induction 1 as [|x l Hl IH Hx]; constructor; [exact IH|].
  eapply Forall_impl; [exact Hx|]. cbn. intros y Hy. lia.
Qed.

Lemma stamped_rev t l : stamped t (rev l) = rev (stamped t l).
Proof.
  unfold stamped. induction l as [|x l IH]; [done|].
  cbn [rev List.filter]. rewrite List.filter_app, IH. cbn [List.filter].
  destruct (timestamp x =? t); [done | by rewrite app_nil_r].
Qed.

Lemma strictly_ordered_stamped t l :
  StronglySorted (fun a b => a.(timestamp) < b.(timestamp)) l ->
  (length (stamped t l) <= 1)%nat.
Proof.
  induction 1 as [|x l Hl IH Hx]; [cbn; lia|].
  destruct (Z.eq_dec (timestamp x) t) as [<-|Hne].
  - rewrite stamped_head.
    assert (stamped (timestamp x) l = []) as ->; [|cbn; lia].
    unfold stamped. rewrite Forall_forall in Hx.
    destruct (List.filter _ l) as [|y r] eqn:Hf; [done|].
    assert (In y (List.filter (fun e => timestamp e =? timestamp x) l)) as Hy
      by (rewrite Hf; by left).
    apply filter_In in Hy as [Hy Heq]. apply Z.eqb_eq in Heq.
    apply list_elem_of_In, Hx in Hy. lia.
  - by rewrite stamped_skip.
Qed.

Lemma rev_short {A} (l : list A) : (length l <= 1)%nat -> rev l = l.
Proof. destruct l as [|x [|y l]]; cbn; [done..|lia]. Qed.

Lemma keeps_empty tx : keeps Filters.empty tx = true.
Proof. reflexivity. Qed.

End Listings.

(** X17: the two listings agree when no two events share a timestamp.
    After a sequence of calls during which the clock strictly advanced,
    [getAllTransactions()] without filters and [getRecentTransactions(n)]
    with [n] at least the size of the log return arrays with the same
    contents: the whole log, newest first. *)
Theorem listings_agree (calls : list (Call * Env)) (n : Z) :
  clockAlwaysAdvances calls ->
  0 < n ->
  Z.of_nat (length (globalLog (exec calls initialStore))) <= n ->
  exists a1 s1 a2 s2,
    getAllTransactions None (exec calls initialStore) = (Return a1, s1)
    /\ getRecentTransactions (Some n) (exec calls initialStore) = (Return a2, s2)
    /\ arrays s1 !! a1 = Some (rev (globalLog (exec calls initialStore)))
    /\ arrays s2 !! a2 = Some (rev (globalLog (exec calls initialStore))).
Proof.
  intros Hclock Hn Hlen. set (s := exec calls initialStore) in *.
  destruct (getAllTransactions_spec None s) as (a1 & s1 & Hrun1 & _ & Hout1).
  eexists a1, s1, _, _. split; [exact Hrun1|].
  split; [apply getRecentTransactions_spec|]. split.
  - rewrite Hout1. f_equal. cbn [from_option id].
    rewrite (List.filter_ext _ _ keeps_empty), filter_all.
    pose proof (globalLog_strictly_ordered calls Hclock) as Hstrict. fold s in Hstrict.
    apply newestFirst_stamped_unique.
    + apply sortBy_newestFirst.
    + by apply oldestFirst_rev, strictly_ordered_oldestFirst.
    + intros t. rewrite sortBy_stamped, stamped_rev.
      symmetry. by apply rev_short, strictly_ordered_stamped.
  - cbn [arrays from_option id]. rewrite list_lookup_middle by done.
    do 2 f_equal. unfold Js.slice.
    destruct (- n <? 0) eqn:Hneg; [|apply Z.ltb_ge in Hneg; lia].
    rewrite Z.max_r by lia. done.
Qed.

Lemma listings_agree_witness :
  exists a1 s1 a2 s2,
    getAllTransactions None (exec Sample.bike initialStore) = (Return a1, s1)
    /\ getRecentTransactions (Some 10) (exec Sample.bike initialStore) = (Return a2, s2)
    /\ arrays s1 !! a1 = Some (rev (globalLog (exec Sample.bike initialStore)))
    /\ arrays s2 !! a2 = Some (rev (globalLog (exec Sample.bike initialStore))).
Proof.
  apply (listings_agree Sample.bike 10).
  - unfold clockAlwaysAdvances. cbn. repeat constructor; lia.
  - lia.
  - vm_compute. discriminate.
Defined.
